(** * micro-arena.h: a first-fit arena allocator over a fixed buffer

    A shallow embedding of [src/micro-arena.h] and the properties of its
    chunk directories and of the four allocation routines.

    Conventions of the embedding.
    - [size_t] and [char*] are 64-bit: values are integers in [0, 2^64) and
      every addition, subtraction and product of the source is followed by
      [wrap].  The null pointer is the address 0.
    - A [MicroArenaChunk*] that points into a directory is the index of the
      slot it points to; a null chunk pointer is [None].  Two pointers alias
      exactly when the indices are equal, and a slot read through a pointer
      after the array was shifted yields what the slot holds then.
    - The arena object lives at the address held by the [ma] argument; its
      first member is [mem], hence [&ma->mem] is the address [ma] itself.
      The routines take the pointer [ma] and the contents of the object and
      return the new contents (and the returned pointer, if any). *)

From stdpp Require Import base numbers list.

Local Open Scope Z_scope.

(** ** Machine integers and configuration *)

Definition size_modulus : Z := 2 ^ 64.

Definition wrap (z : Z) : Z := z mod size_modulus.

Definition NULL : Z := 0.

(** [#define MICRO_ARENA_STACK_MEM_SIZE 4096] *)
Definition MICRO_ARENA_STACK_MEM_SIZE : Z := 4096.

(** [#define MICRO_ARENA_MAX_NUM_CHUNKS 1024] (the default) *)
Definition MICRO_ARENA_MAX_NUM_CHUNKS : nat := 1024.

(** ** Types *)

(** [typedef struct { char* start; size_t size; } MicroArenaChunk;] *)
Record MicroArenaChunk : Type := mkChunk {
  chunk_start : Z;
  chunk_size : Z;
}.

(** [typedef struct { MicroArenaChunk chunks[N]; size_t len; } MicroArenaChunkList;]
    The list [chunks] is the whole array, stale slots included. *)
Record MicroArenaChunkList : Type := mkChunkList {
  chunks : list MicroArenaChunk;
  len : nat;
}.

(** [typedef struct { char mem[SIZE]; MicroArenaChunkList free_chunks;
    MicroArenaChunkList used_chunks; } MicroArena;] *)
Record MicroArena : Type := mkArena {
  mem : list Z;
  free_chunks : MicroArenaChunkList;
  used_chunks : MicroArenaChunkList;
}.

Global Instance MicroArenaChunk_inhabited : Inhabited MicroArenaChunk :=
  populate (mkChunk 0 0).

(** ** Array accesses *)

(** [chunk_list->chunks[i]] read as a value. *)
Definition chunk_at (cl : MicroArenaChunkList) (i : nat) : MicroArenaChunk :=
  default (mkChunk 0 0) (chunks cl !! i).

(** [chunk_list->chunks[i] = c] *)
Definition set_chunk (cl : MicroArenaChunkList) (i : nat) (c : MicroArenaChunk)
  : MicroArenaChunkList :=
  {| chunks := <[i := c]> (chunks cl); len := len cl |}.

(** [chunk_list->chunks[i].start = v] *)
Definition set_start (cl : MicroArenaChunkList) (i : nat) (v : Z)
  : MicroArenaChunkList :=
  set_chunk cl i (mkChunk v (chunk_size (chunk_at cl i))).

(** [chunk_list->chunks[i].size = v] *)
Definition set_size (cl : MicroArenaChunkList) (i : nat) (v : Z)
  : MicroArenaChunkList :=
  set_chunk cl i (mkChunk (chunk_start (chunk_at cl i)) v).

Definition with_free (s : MicroArena) (fc : MicroArenaChunkList) : MicroArena :=
  {| mem := mem s; free_chunks := fc; used_chunks := used_chunks s |}.

Definition with_used (s : MicroArena) (uc : MicroArenaChunkList) : MicroArena :=
  {| mem := mem s; free_chunks := free_chunks s; used_chunks := uc |}.

Definition with_mem (s : MicroArena) (m : list Z) : MicroArena :=
  {| mem := m; free_chunks := free_chunks s; used_chunks := used_chunks s |}.

(** A byte of the arena object read or written through an address.  The
    buffer [mem] occupies the addresses [ma .. ma + SIZE - 1]; an access
    outside of it is outside the object (undefined in C) and the model
    leaves the buffer alone. *)
Definition load_byte (ma : Z) (s : MicroArena) (addr : Z) : Z :=
  if (ma <=? addr) && (addr <? ma + MICRO_ARENA_STACK_MEM_SIZE)
  then default 0 (mem s !! Z.to_nat (addr - ma))
  else 0.

Definition store_byte (ma : Z) (s : MicroArena) (addr : Z) (v : Z) : MicroArena :=
  if (ma <=? addr) && (addr <? ma + MICRO_ARENA_STACK_MEM_SIZE)
  then with_mem s (<[Z.to_nat (addr - ma) := v]> (mem s))
  else s.

(** ** Chunk directory

    The routines below are given the contents of the directory their
    [chunk_list] argument points to; the callers in this file always pass
    the address of a directory of the arena, so the null-pointer guard
    that opens each routine is not represented.  [len] is a [nat]: it never
    exceeds the number of slots of the array, hence [len + 1] and [len - 1]
    do not wrap. *)

(** [micro_arena_chunk_list_add]: the new contents and the returned slot
    pointer. *)
Definition micro_arena_chunk_list_add (chunk_list : MicroArenaChunkList)
    (start size : Z) : MicroArenaChunkList * option nat :=
  if (MICRO_ARENA_MAX_NUM_CHUNKS <=? len chunk_list + 1)%nat
  then (chunk_list, None)
  else
    let cl := set_chunk chunk_list (len chunk_list) (mkChunk start size) in
    let cl := {| chunks := chunks cl; len := S (len cl) |} in
    (cl, Some (len cl - 1)%nat).

(** The [while] loop of [micro_arena_chunk_list_remove]: [n] iterations are
    left before [i] reaches [len]; the result is the final value of [i]. *)
Fixpoint remove_scan (chunk_list : MicroArenaChunkList) (start : Z)
    (n i : nat) : nat :=
  match n with
  | O => i
  | S n' =>
    if chunk_start (chunk_at chunk_list i) =? start then i
    else remove_scan chunk_list start n' (S i)
  end.

(** The [for] loop of [micro_arena_chunk_list_remove]:
    [chunks[i-1] = chunks[i]] for [n] iterations. *)
Fixpoint remove_shift (chunk_list : MicroArenaChunkList) (n i : nat)
  : MicroArenaChunkList :=
  match n with
  | O => chunk_list
  | S n' =>
    remove_shift (set_chunk chunk_list (i - 1) (chunk_at chunk_list i)) n' (S i)
  end.

Definition micro_arena_chunk_list_remove (chunk_list : MicroArenaChunkList)
    (start : Z) : MicroArenaChunkList :=
  let i := remove_scan chunk_list start (len chunk_list) 0 in
  if (len chunk_list <=? i)%nat then chunk_list
  else
    let cl := remove_shift chunk_list (len chunk_list - (i + 1)) (i + 1) in
    {| chunks := chunks cl; len := (len cl - 1)%nat |}.

(** The loop of [micro_arena_chunk_list_get]. *)
Fixpoint get_loop (chunk_list : MicroArenaChunkList) (start : Z)
    (n i : nat) : option nat :=
  match n with
  | O => None
  | S n' =>
    if chunk_start (chunk_at chunk_list i) =? start then Some i
    else get_loop chunk_list start n' (S i)
  end.

Definition micro_arena_chunk_list_get (chunk_list : MicroArenaChunkList)
    (start : Z) : option nat :=
  get_loop chunk_list start (len chunk_list) 0.

Definition micro_arena_chunk_list_reset (chunk_list : MicroArenaChunkList)
  : MicroArenaChunkList :=
  {| chunks := chunks chunk_list; len := 0 |}.

(** ** Arena *)

Definition micro_arena_init (ma : Z) (s : MicroArena) : MicroArena :=
  if ma =? NULL then s
  else
    let s := with_free s (micro_arena_chunk_list_reset (free_chunks s)) in
    let s := with_used s (micro_arena_chunk_list_reset (used_chunks s)) in
    with_free s (fst (micro_arena_chunk_list_add (free_chunks s) ma
                        MICRO_ARENA_STACK_MEM_SIZE)).

(** The loop of [micro_arena_malloc], with [n] iterations left. *)
Fixpoint malloc_loop (size : Z) (s : MicroArena) (n i : nat) : MicroArena * Z :=
  match n with
  | O => (s, NULL)
  | S n' =>
    if chunk_size (chunk_at (free_chunks s) i) <? size
    then malloc_loop size s n' (S i)
    else
      let '(uc, used_chunk) :=
        micro_arena_chunk_list_add (used_chunks s)
          (chunk_start (chunk_at (free_chunks s) i)) size in
      match used_chunk with
      | None => (s, NULL)
      | Some u =>
        let s := with_used s uc in
        let s := with_free s
          (set_start (free_chunks s) i
             (wrap (chunk_start (chunk_at (free_chunks s) i) + size))) in
        let s := with_free s
          (set_size (free_chunks s) i
             (wrap (chunk_size (chunk_at (free_chunks s) i) - size))) in
        (s, chunk_start (chunk_at (used_chunks s) u))
      end
  end.

Definition micro_arena_malloc (ma : Z) (size : Z) (s : MicroArena)
  : MicroArena * Z :=
  if ma =? NULL then (s, NULL)
  else malloc_loop size s (len (free_chunks s)) 0.

(** The neighbour search of [micro_arena_free]: the accumulators are
    [free_chunk_after] and [free_chunk_before]; a later match overwrites an
    earlier one. *)
Fixpoint free_scan (s : MicroArena) (u : nat) (n i : nat)
    (free_chunk_after free_chunk_before : option nat)
  : option nat * option nat :=
  match n with
  | O => (free_chunk_after, free_chunk_before)
  | S n' =>
    let used_chunk := chunk_at (used_chunks s) u in
    let c := chunk_at (free_chunks s) i in
    let free_chunk_after :=
      if chunk_start c =? wrap (chunk_start used_chunk + chunk_size used_chunk)
      then Some i else free_chunk_after in
    let free_chunk_before :=
      if chunk_start used_chunk =? wrap (chunk_start c + chunk_size c)
      then Some i else free_chunk_before in
    free_scan s u n' (S i) free_chunk_after free_chunk_before
  end.

Definition micro_arena_free (ma : Z) (ptr : Z) (s : MicroArena) : MicroArena :=
  if ma =? NULL then s
  else
    match micro_arena_chunk_list_get (used_chunks s) ptr with
    | None => s
    | Some u =>
      match free_scan s u (len (free_chunks s)) 0 None None with
      | (Some a, Some b) =>
        let s := with_free s
          (set_size (free_chunks s) b
             (wrap (chunk_size (chunk_at (free_chunks s) b)
                    + wrap (chunk_size (chunk_at (used_chunks s) u)
                            + chunk_size (chunk_at (free_chunks s) a))))) in
        let s := with_used s
          (micro_arena_chunk_list_remove (used_chunks s)
             (chunk_start (chunk_at (used_chunks s) u))) in
        with_free s
          (micro_arena_chunk_list_remove (free_chunks s)
             (chunk_start (chunk_at (free_chunks s) b)))
      | (None, Some b) =>
        let s := with_free s
          (set_size (free_chunks s) b
             (wrap (chunk_size (chunk_at (free_chunks s) b)
                    + chunk_size (chunk_at (used_chunks s) u)))) in
        with_used s
          (micro_arena_chunk_list_remove (used_chunks s)
             (chunk_start (chunk_at (used_chunks s) u)))
      | (Some a, None) =>
        let s := with_free s
          (set_start (free_chunks s) a
             (chunk_start (chunk_at (used_chunks s) u))) in
        let s := with_free s
          (set_size (free_chunks s) a
             (wrap (chunk_size (chunk_at (free_chunks s) a)
                    + chunk_size (chunk_at (used_chunks s) u)))) in
        with_used s
          (micro_arena_chunk_list_remove (used_chunks s)
             (chunk_start (chunk_at (used_chunks s) u)))
      | (None, None) =>
        let s := with_free s
          (fst (micro_arena_chunk_list_add (free_chunks s)
                  (chunk_start (chunk_at (used_chunks s) u))
                  (chunk_size (chunk_at (used_chunks s) u)))) in
        with_used s
          (micro_arena_chunk_list_remove (used_chunks s)
             (chunk_start (chunk_at (used_chunks s) u)))
      end
    end.

(** [for (i = 0; i < n; ++i) mem[i] = 0;] with [n] iterations left. *)
Fixpoint zero_loop (ma : Z) (p : Z) (s : MicroArena) (n : nat) (i : Z)
  : MicroArena :=
  match n with
  | O => s
  | S n' => zero_loop ma p (store_byte ma s (wrap (p + i)) 0) n' (i + 1)
  end.

Definition micro_arena_calloc (ma : Z) (nmemb size : Z) (s : MicroArena)
  : MicroArena * Z :=
  if ma =? NULL then (s, NULL)
  else
    let '(s, m) := micro_arena_malloc ma (wrap (size * nmemb)) s in
    if m =? NULL then (s, NULL)
    else (zero_loop ma m s (Z.to_nat (wrap (nmemb * size))) 0, m).

(** [for (i = 0; i < min_size; ++i) mem[i] = ((char* )ptr)[i];] *)
Fixpoint copy_loop (ma : Z) (dst src : Z) (s : MicroArena) (n : nat) (i : Z)
  : MicroArena :=
  match n with
  | O => s
  | S n' =>
    copy_loop ma dst src
      (store_byte ma s (wrap (dst + i)) (load_byte ma s (wrap (src + i))))
      n' (i + 1)
  end.

Definition micro_arena_realloc (ma : Z) (ptr : Z) (size : Z) (s : MicroArena)
  : MicroArena * Z :=
  if ma =? NULL then (s, NULL)
  else if ptr =? NULL then micro_arena_malloc ma size s
  else
    match micro_arena_chunk_list_get (used_chunks s) ptr with
    | None => (s, NULL)
    | Some u =>
      let '(s, m) := micro_arena_malloc ma size s in
      if m =? NULL then (s, NULL)
      else
        let used_size := chunk_size (chunk_at (used_chunks s) u) in
        let min_size := if used_size <? size then used_size else size in
        let s := copy_loop ma m ptr s (Z.to_nat min_size) 0 in
        (micro_arena_free ma ptr s, m)
    end.

Definition micro_arena_reallocarray (ma : Z) (ptr : Z) (nmemb size : Z)
    (s : MicroArena) : MicroArena * Z :=
  micro_arena_realloc ma ptr (wrap (nmemb * size)) s.

(** ** What a directory shows

    Every loop of the source stops at [len]: the entries of a directory are
    the first [len] slots of its array. *)

Definition visible (cl : MicroArenaChunkList) : list MicroArenaChunk :=
  take (len cl) (chunks cl).

(** The array has [MICRO_ARENA_MAX_NUM_CHUNKS] slots and [len] stays within
    it. *)
Definition list_shape (cl : MicroArenaChunkList) : Prop :=
  length (chunks cl) = MICRO_ARENA_MAX_NUM_CHUNKS
  ∧ (len cl ≤ MICRO_ARENA_MAX_NUM_CHUNKS)%nat.

Definition arena_shape (s : MicroArena) : Prop :=
  list_shape (free_chunks s) ∧ list_shape (used_chunks s).

(** What the type gives of an object that was never initialised: the two
    arrays have their declared number of slots; the [len] fields hold
    anything. *)
Definition arena_arrays (s : MicroArena) : Prop :=
  length (chunks (free_chunks s)) = MICRO_ARENA_MAX_NUM_CHUNKS
  ∧ length (chunks (used_chunks s)) = MICRO_ARENA_MAX_NUM_CHUNKS.

(** End of the byte range of a chunk. *)
Definition chunk_end (c : MicroArenaChunk) : Z := chunk_start c + chunk_size c.

(** The chunk lies in the buffer of the arena at address [ma]. *)
Definition in_buffer (ma : Z) (c : MicroArenaChunk) : Prop :=
  ma ≤ chunk_start c ∧ 0 ≤ chunk_size c
  ∧ chunk_end c ≤ ma + MICRO_ARENA_STACK_MEM_SIZE.

(** The arena object sits at a non-null address and ends inside the address
    space; both directories have the right shape and only hold chunks of the
    buffer. *)
Definition arena_wf (ma : Z) (s : MicroArena) : Prop :=
  0 < ma ∧ ma + MICRO_ARENA_STACK_MEM_SIZE < size_modulus
  ∧ arena_shape s
  ∧ Forall (in_buffer ma) (visible (free_chunks s))
  ∧ Forall (in_buffer ma) (visible (used_chunks s)).

(** Index of the first entry of a list of chunks that starts at [start]. *)
Definition find_start (start : Z) (l : list MicroArenaChunk) : option nat :=
  fst <$> list_find (λ c, chunk_start c = start) l.

(** ** Public operations as a transition system *)

Inductive op : Type :=
  | OpInit
  | OpMalloc (size : Z)
  | OpFree (ptr : Z)
  | OpCalloc (nmemb size : Z)
  | OpRealloc (ptr size : Z)
  | OpReallocarray (ptr nmemb size : Z).

Definition step (ma : Z) (o : op) (s : MicroArena) : MicroArena :=
  match o with
  | OpInit => micro_arena_init ma s
  | OpMalloc size => fst (micro_arena_malloc ma size s)
  | OpFree ptr => micro_arena_free ma ptr s
  | OpCalloc nmemb size => fst (micro_arena_calloc ma nmemb size s)
  | OpRealloc ptr size => fst (micro_arena_realloc ma ptr size s)
  | OpReallocarray ptr nmemb size =>
    fst (micro_arena_reallocarray ma ptr nmemb size s)
  end.

Definition run (ma : Z) (ops : list op) (s : MicroArena) : MicroArena :=
  foldl (λ s o, step ma o s) s ops.

Definition is_word (z : Z) : Prop := 0 ≤ z < size_modulus.

(** The arguments are values of [size_t] and of pointer type. *)
Definition op_valid (o : op) : Prop :=
  match o with
  | OpInit => True
  | OpMalloc size => is_word size
  | OpFree ptr => is_word ptr
  | OpCalloc nmemb size => is_word nmemb ∧ is_word size
  | OpRealloc ptr size => is_word ptr ∧ is_word size
  | OpReallocarray ptr nmemb size => is_word ptr ∧ is_word nmemb ∧ is_word size
  end.

(** The number of bytes the operation asks [micro_arena_malloc] for. *)
Definition op_request (o : op) : option Z :=
  match o with
  | OpInit | OpFree _ => None
  | OpMalloc size => Some size
  | OpCalloc nmemb size => Some (wrap (size * nmemb))
  | OpRealloc _ size => Some size
  | OpReallocarray _ nmemb size => Some (wrap (nmemb * size))
  end.

Definition op_nonzero (o : op) : Prop := op_request o ≠ Some 0.

(** States an arena at [ma] goes through: [micro_arena_init] on an object
    with arbitrary contents, then any operations that satisfy [P]. *)
Inductive reachable_by (P : op → Prop) (ma : Z) : MicroArena → Prop :=
  | reach_init s0 :
      arena_shape s0 → reachable_by P ma (micro_arena_init ma s0)
  | reach_step s o :
      reachable_by P ma s → P o → reachable_by P ma (step ma o s).

Definition reachable : Z → MicroArena → Prop := reachable_by op_valid.

(** Ranges of two chunks that do not overlap. *)
Definition separate (c d : MicroArenaChunk) : Prop :=
  chunk_end c ≤ chunk_start d ∨ chunk_end d ≤ chunk_start c.

(** The address [a] is a byte of the chunk. *)
Definition covers (c : MicroArenaChunk) (a : Z) : Prop :=
  chunk_start c ≤ a < chunk_end c.

(** The tiling invariant of the data model: any two entries (of either
    directory) have disjoint byte ranges, and every byte of the buffer
    belongs to some entry. *)
Definition pairwise {A} (R : A → A → Prop) (l : list A) : Prop :=
  ∀ i j x y, i ≠ j → l !! i = Some x → l !! j = Some y → R x y.

Definition disjoint_ranges (c d : MicroArenaChunk) : Prop :=
  ∀ a, covers c a → ¬ covers d a.

(** Every byte of the buffer at [ma] belongs to a chunk of the list. *)
Definition covered (ma : Z) (l : list MicroArenaChunk) : Prop :=
  ∀ a, ma ≤ a < ma + MICRO_ARENA_STACK_MEM_SIZE → ∃ c, c ∈ l ∧ covers c a.

Definition tiles (ma : Z) (s : MicroArena) : Prop :=
  pairwise disjoint_ranges (visible (free_chunks s) ++ visible (used_chunks s))
  ∧ covered ma (visible (free_chunks s) ++ visible (used_chunks s)).

(** No two entries of the list start at the same address. *)
Definition unique_starts (l : list MicroArenaChunk) : Prop :=
  NoDup (chunk_start <$> l).

(** An object before [micro_arena_init]: the arrays are there, nothing in
    them means anything yet. *)
Definition blank_arena : MicroArena :=
  {| mem := replicate (Z.to_nat MICRO_ARENA_STACK_MEM_SIZE) 0;
     free_chunks := {| chunks := replicate MICRO_ARENA_MAX_NUM_CHUNKS (mkChunk 0 0);
                       len := 0 |};
     used_chunks := {| chunks := replicate MICRO_ARENA_MAX_NUM_CHUNKS (mkChunk 0 0);
                       len := 0 |} |}.


(** Index of the first entry of a list of chunks whose size is at least
    [size]. *)
Definition find_fit (size : Z) (l : list MicroArenaChunk) : option nat :=
  fst <$> list_find (λ c, size ≤ chunk_size c) l.

(** What the neighbour search of [micro_arena_free] reports for a target
    address: a slot whose [key] is the target, or nothing when no entry has
    that key. *)
Definition scan_result (key : MicroArenaChunk → Z) (target : Z)
    (l : list MicroArenaChunk) (r : option nat) : Prop :=
  match r with
  | Some i => ∃ c, l !! i = Some c ∧ key c = target
              ∧ ∀ j d, l !! j = Some d → (i < j)%nat → key d ≠ target
  | None => ∀ c, c ∈ l → key c ≠ target
  end.

(** The free entries after releasing the used chunk [uc], given the slots
    [a] (after) and [b] (before) that the neighbour search found. *)
Definition merged_free (l : list MicroArenaChunk) (uc : MicroArenaChunk)
    (a b : option nat) : list MicroArenaChunk :=
  match a, b with
  | Some ia, Some ib =>
    let l1 :=
      <[ib := mkChunk (chunk_start (l !!! ib))
                (wrap (chunk_size (l !!! ib)
                       + wrap (chunk_size uc + chunk_size (l !!! ia))))]> l in
    match find_start (chunk_start (l !!! ib)) l1 with
    | Some k => delete k l1
    | None => l1
    end
  | None, Some ib =>
    <[ib := mkChunk (chunk_start (l !!! ib))
              (wrap (chunk_size (l !!! ib) + chunk_size uc))]> l
  | Some ia, None =>
    <[ia := mkChunk (chunk_start uc)
              (wrap (chunk_size (l !!! ia) + chunk_size uc))]> l
  | None, None =>
    if (MICRO_ARENA_MAX_NUM_CHUNKS <=? length l + 1)%nat then l
    else l ++ [mkChunk (chunk_start uc) (chunk_size uc)]
  end.

(** One accumulator of the neighbour search: the last slot among
    [i .. i + n - 1] whose [key] is [target], or [acc] when there is none. *)
Fixpoint last_match (key : MicroArenaChunk → Z) (target : Z)
    (cl : MicroArenaChunkList) (n i : nat) (acc : option nat) : option nat :=
  match n with
  | O => acc
  | S n' =>
    last_match key target cl n' (S i)
      (if key (chunk_at cl i) =? target then Some i else acc)
  end.

(** The key compared for the after-neighbour and for the before-neighbour. *)
Definition after_key (c : MicroArenaChunk) : Z := chunk_start c.
Definition before_key (c : MicroArenaChunk) : Z :=
  wrap (chunk_start c + chunk_size c).

(** Two arena contents with the same directories (the buffers may differ). *)
Definition same_dirs (s s' : MicroArena) : Prop :=
  free_chunks s = free_chunks s' ∧ used_chunks s = used_chunks s'.

(** Two free chunks that neither overlap nor touch. *)
Definition gap (c d : MicroArenaChunk) : Prop :=
  chunk_end c < chunk_start d ∨ chunk_end d < chunk_start c.

(** What holds of the two directories as long as no request is for zero
    bytes: every chunk lies in the buffer, used chunks are not empty, free
    chunks are apart from each other, and no range overlaps another. *)
Definition dirs_inv (ma : Z) (F U : list MicroArenaChunk) : Prop :=
  Forall (in_buffer ma) F
  ∧ Forall (in_buffer ma) U
  ∧ Forall (λ c, 0 < chunk_size c) U
  ∧ pairwise gap F
  ∧ pairwise separate U
  ∧ ∀ c d, c ∈ F → d ∈ U → separate c d.

Definition arena_inv (ma : Z) (s : MicroArena) : Prop :=
  0 < ma ∧ ma + MICRO_ARENA_STACK_MEM_SIZE < size_modulus
  ∧ arena_shape s
  ∧ dirs_inv ma (visible (free_chunks s)) (visible (used_chunks s)).

(** An object as a declaration without initialiser leaves it: leftover
    chunks in the slots and [len] fields beyond the arrays. *)
Definition garbage_arena : MicroArena :=
  {| mem := replicate (Z.to_nat MICRO_ARENA_STACK_MEM_SIZE) 85;
     free_chunks := {| chunks := replicate MICRO_ARENA_MAX_NUM_CHUNKS (mkChunk 7 9);
                       len := 5000 |};
     used_chunks := {| chunks := replicate MICRO_ARENA_MAX_NUM_CHUNKS (mkChunk 3 1);
                       len := 4000 |} |}.

(** ** The scenario of [src/test.c]

    [main] of the test, on an arena object placed at [test_ma].  The first
    component is the arena just before the last [micro_arena_free], the
    second the pointer [mem2] passed to it. *)

Definition test_ma : Z := 65536.

Definition test_main_before_last_free : MicroArena * Z :=
  let s := micro_arena_init test_ma blank_arena in
  let '(s, mem1) := micro_arena_malloc test_ma (4 * 10) s in
  let '(s, mem2) := micro_arena_malloc test_ma (1 * 10) s in
  let '(s, mem3) := micro_arena_malloc test_ma 69 s in
  let s := micro_arena_free test_ma mem1 s in
  let s := micro_arena_free test_ma mem3 s in
  (s, mem2).

Definition test_main : MicroArena :=
  let '(s, mem2) := test_main_before_last_free in
  micro_arena_free test_ma mem2 s.

(** The same calls as operations of the transition system. *)
Definition test_ops : list op :=
  [OpMalloc 40; OpMalloc 10; OpMalloc 69;
   OpFree test_ma; OpFree (test_ma + 50); OpFree (test_ma + 40)].

(** The calls before the last [micro_arena_free], and the arena they lead
    to. *)
Definition test_ops_before_last_free : list op :=
  [OpMalloc 40; OpMalloc 10; OpMalloc 69; OpFree test_ma; OpFree (test_ma + 50)].

Definition test_arena_before_last_free : MicroArena :=
  run test_ma test_ops_before_last_free (micro_arena_init test_ma blank_arena).

(** The arena after the three allocations and the release of the first. *)
Definition test_arena_two_live : MicroArena :=
  run test_ma [OpMalloc 40; OpMalloc 10; OpMalloc 69; OpFree test_ma]
    (micro_arena_init test_ma blank_arena).

(** The arena after the three allocations. *)
Definition test_arena_three_live : MicroArena :=
  run test_ma [OpMalloc 40; OpMalloc 10; OpMalloc 69]
    (micro_arena_init test_ma blank_arena).

(** An arena whose used directory is at capacity: one-byte allocations
    until [micro_arena_chunk_list_add] refuses. *)
Definition full_ops : list op :=
  replicate (MICRO_ARENA_MAX_NUM_CHUNKS - 1) (OpMalloc 1).

Definition full_arena : MicroArena :=
  run test_ma full_ops (micro_arena_init test_ma blank_arena).

(** Two requests for zero bytes in a row. *)
Definition zero_ops : list op := [OpMalloc 0; OpMalloc 0].

Definition zero_arena : MicroArena :=
  run test_ma zero_ops (micro_arena_init test_ma blank_arena).

(** One live allocation of 40 bytes. *)
Definition one_arena : MicroArena :=
  run test_ma [OpMalloc 40] (micro_arena_init test_ma blank_arena).

(** [micro_arena_free] of [ptr] would take its both-neighbours branch. *)
Definition finds_both (s : MicroArena) (ptr : Z) : Prop :=
  ∃ u a b,
    micro_arena_chunk_list_get (used_chunks s) ptr = Some u
    ∧ free_scan s u (len (free_chunks s)) 0 None None = (Some a, Some b).

(** The arena and the pointer on which the operation calls
    [micro_arena_free], if it gets that far. *)
Definition op_release (ma : Z) (o : op) (s : MicroArena)
  : option (MicroArena * Z) :=
  match o with
  | OpFree ptr => Some (s, ptr)
  | OpRealloc ptr size => Some ((micro_arena_malloc ma size s).1, ptr)
  | OpReallocarray ptr nmemb size =>
    Some ((micro_arena_malloc ma (wrap (nmemb * size)) s).1, ptr)
  | _ => None
  end.

(** States reached without a request for zero bytes and without a release
    that finds both neighbours. *)
Inductive reachable_unmerged (ma : Z) : MicroArena → Prop :=
  | unmerged_init s0 :
      arena_shape s0 → reachable_unmerged ma (micro_arena_init ma s0)
  | unmerged_step s o :
      reachable_unmerged ma s → op_valid o → op_nonzero o →
      (∀ s' ptr, op_release ma o s = Some (s', ptr) → ¬ finds_both s' ptr) →
      reachable_unmerged ma (step ma o s).

(** The invariant of [arena_inv] together with the covering of the buffer. *)
Definition arena_tiled (ma : Z) (s : MicroArena) : Prop :=
  arena_inv ma s
  ∧ (len (used_chunks s) < MICRO_ARENA_MAX_NUM_CHUNKS)%nat
  ∧ covered ma (visible (free_chunks s) ++ visible (used_chunks s)).

(** The buffer [mem] has its declared number of bytes. *)
Definition buffer_shape (s : MicroArena) : Prop :=
  length (mem s) = Z.to_nat MICRO_ARENA_STACK_MEM_SIZE.

(** Both directories are below capacity. *)
Definition below_capacity (s : MicroArena) : Prop :=
  (len (free_chunks s) < MICRO_ARENA_MAX_NUM_CHUNKS)%nat
  ∧ (len (used_chunks s) < MICRO_ARENA_MAX_NUM_CHUNKS)%nat.
(** * Proofs *)

(** ** Machine arithmetic *)

Lemma size_modulus_eq : size_modulus = 18446744073709551616.
Proof. reflexivity. Qed.

Lemma wrap_small z : 0 ≤ z < size_modulus → wrap z = z.
Proof. intros Hz. unfold wrap. apply Z.mod_small. exact Hz. Qed.

Lemma wrap_is_word z : is_word (wrap z).
Proof.
  unfold is_word, wrap. apply Z.mod_pos_bound.
  rewrite size_modulus_eq. lia.
Qed.

Lemma max_num_chunks_gt_1 : (1 < MICRO_ARENA_MAX_NUM_CHUNKS)%nat.
Proof. unfold MICRO_ARENA_MAX_NUM_CHUNKS. lia. Qed.

Global Opaque size_modulus MICRO_ARENA_MAX_NUM_CHUNKS.

(** ** The directory seen through [visible] *)

Section directory.
Implicit Types (cl : MicroArenaChunkList) (c : MicroArenaChunk).
Implicit Types (i j k n : nat).

Lemma visible_length cl :
  (len cl ≤ length (chunks cl))%nat → length (visible cl) = len cl.
Proof. intros Hle. unfold visible. by rewrite length_take_le. Qed.

Lemma shape_len_le cl : list_shape cl → (len cl ≤ length (chunks cl))%nat.
Proof. intros [-> ?]. done. Qed.

Lemma visible_lookup_lt cl i :
  (i < len cl)%nat → visible cl !! i = chunks cl !! i.
Proof. intros Hi. unfold visible. by apply lookup_take_lt. Qed.

Lemma visible_lookup_chunk_at cl i c :
  visible cl !! i = Some c → chunk_at cl i = c.
Proof.
  unfold visible, chunk_at. intros [Hc _]%lookup_take_Some. by rewrite Hc.
Qed.

Lemma visible_lookup_len cl i c : visible cl !! i = Some c → (i < len cl)%nat.
Proof. unfold visible. by intros [_ ?]%lookup_take_Some. Qed.

Lemma visible_chunk_at cl i :
  (len cl ≤ length (chunks cl))%nat → (i < len cl)%nat →
  visible cl !! i = Some (chunk_at cl i).
Proof.
  intros Hle Hi. rewrite visible_lookup_lt by done. unfold chunk_at.
  destruct (lookup_lt_is_Some_2 (chunks cl) i) as [c ->]; [lia | done].
Qed.

Lemma visible_set_chunk cl i c :
  (i < len cl)%nat → visible (set_chunk cl i c) = <[i := c]> (visible cl).
Proof. intros Hi. unfold visible, set_chunk. simpl. by apply take_insert_lt. Qed.

Lemma shape_set_chunk cl i c : list_shape cl → list_shape (set_chunk cl i c).
Proof. intros [Hl Hn]. split; simpl; [by rewrite length_insert | done]. Qed.

Lemma visible_set_start cl i v c :
  visible cl !! i = Some c →
  visible (set_start cl i v) = <[i := mkChunk v (chunk_size c)]> (visible cl).
Proof.
  intros Hc. unfold set_start.
  rewrite (visible_lookup_chunk_at _ _ _ Hc).
  apply visible_set_chunk. by eapply visible_lookup_len.
Qed.

Lemma visible_set_size cl i v c :
  visible cl !! i = Some c →
  visible (set_size cl i v) = <[i := mkChunk (chunk_start c) v]> (visible cl).
Proof.
  intros Hc. unfold set_size.
  rewrite (visible_lookup_chunk_at _ _ _ Hc).
  apply visible_set_chunk. by eapply visible_lookup_len.
Qed.

(** *** add *)

Lemma add_full cl start size :
  (MICRO_ARENA_MAX_NUM_CHUNKS ≤ len cl + 1)%nat →
  micro_arena_chunk_list_add cl start size = (cl, None).
Proof.
  intros Hfull. unfold micro_arena_chunk_list_add.
  by rewrite (proj2 (Nat.leb_le _ _) Hfull).
Qed.

Lemma add_room cl start size :
  (len cl + 1 < MICRO_ARENA_MAX_NUM_CHUNKS)%nat →
  micro_arena_chunk_list_add cl start size =
    ({| chunks := <[len cl := mkChunk start size]> (chunks cl);
        len := S (len cl) |}, Some (len cl)).
Proof.
  intros Hroom. unfold micro_arena_chunk_list_add.
  rewrite (proj2 (Nat.leb_gt _ _) Hroom). simpl.
  by rewrite Nat.sub_0_r.
Qed.

Lemma visible_add_room cl start size :
  list_shape cl → (len cl + 1 < MICRO_ARENA_MAX_NUM_CHUNKS)%nat →
  visible (micro_arena_chunk_list_add cl start size).1
  = visible cl ++ [mkChunk start size].
Proof.
  intros [Hl Hn] Hroom. rewrite add_room by done. unfold visible. simpl.
  erewrite take_S_r; [|apply list_lookup_insert_eq; lia].
  by rewrite take_insert_ge.
Qed.

Lemma shape_add cl start size :
  list_shape cl → list_shape (micro_arena_chunk_list_add cl start size).1.
Proof.
  intros [Hl Hn]. unfold micro_arena_chunk_list_add.
  destruct (Nat.leb_spec MICRO_ARENA_MAX_NUM_CHUNKS (len cl + 1)); simpl.
  - done.
  - split; simpl; [by rewrite length_insert | lia].
Qed.

(** *** get *)

Lemma get_loop_Some cl start n i k :
  get_loop cl start n i = Some k →
  (i ≤ k < i + n)%nat ∧ chunk_start (chunk_at cl k) = start
  ∧ ∀ j, (i ≤ j < k)%nat → chunk_start (chunk_at cl j) ≠ start.
Proof.
  revert i. induction n as [|n IH]; intros i; simpl; [done|].
  destruct (Z.eqb_spec (chunk_start (chunk_at cl i)) start) as [Heq|Hne].
  - intros [= <-]. split; [lia|]. split; [done|]. intros; lia.
  - intros (Hk & Hs & Hmin)%IH. split; [lia|]. split; [done|].
    intros j Hj. destruct (decide (j = i)) as [->|]; [done|]. apply Hmin. lia.
Qed.

Lemma get_loop_None cl start n i :
  get_loop cl start n i = None →
  ∀ j, (i ≤ j < i + n)%nat → chunk_start (chunk_at cl j) ≠ start.
Proof.
  revert i. induction n as [|n IH]; intros i; simpl; [intros; lia|].
  destruct (Z.eqb_spec (chunk_start (chunk_at cl i)) start) as [Heq|Hne];
    [done|].
  intros Hn j Hj. destruct (decide (j = i)) as [->|]; [done|].
  apply (IH _ Hn). lia.
Qed.

Lemma get_find_start cl start :
  (len cl ≤ length (chunks cl))%nat →
  micro_arena_chunk_list_get cl start = find_start start (visible cl).
Proof.
  intros Hle. unfold micro_arena_chunk_list_get, find_start.
  destruct (get_loop cl start (len cl) 0) as [k|] eqn:Hg.
  - apply get_loop_Some in Hg as (Hk & Hs & Hmin).
    assert (list_find (λ c, chunk_start c = start) (visible cl)
            = Some (k, chunk_at cl k)) as ->; [|done].
    apply list_find_Some. split; [|split].
    + apply visible_chunk_at; lia.
    + done.
    + intros j y Hy Hj. rewrite <-(visible_lookup_chunk_at _ _ _ Hy).
      apply Hmin. lia.
  - assert (list_find (λ c, chunk_start c = start) (visible cl) = None)
      as ->; [|done].
    apply list_find_None, Forall_lookup. intros j y Hy.
    rewrite <-(visible_lookup_chunk_at _ _ _ Hy).
    apply (get_loop_None _ _ _ _ Hg). apply visible_lookup_len in Hy. lia.
Qed.

Lemma find_start_Some start (l : list MicroArenaChunk) i :
  find_start start l = Some i ↔
  ∃ c, l !! i = Some c ∧ chunk_start c = start
       ∧ ∀ j d, l !! j = Some d → (j < i)%nat → chunk_start d ≠ start.
Proof.
  unfold find_start. split.
  - destruct (list_find _ l) as [[k c]|] eqn:Hf; [|done].
    intros [= <-]. apply list_find_Some in Hf. eauto.
  - intros (c & Hc & Hs & Hmin).
    by rewrite (proj2 (list_find_Some _ l i c) (conj Hc (conj Hs Hmin))).
Qed.

Lemma find_start_None start (l : list MicroArenaChunk) :
  find_start start l = None ↔ ∀ c, c ∈ l → chunk_start c ≠ start.
Proof.
  unfold find_start. rewrite fmap_None, list_find_None, Forall_forall. done.
Qed.

(** *** remove *)

Lemma remove_scan_get_loop cl start n i :
  remove_scan cl start n i = default (i + n)%nat (get_loop cl start n i).
Proof.
  revert i. induction n as [|n IH]; intros i; simpl; [lia|].
  destruct (chunk_start (chunk_at cl i) =? start); [done|].
  rewrite IH. f_equal. lia.
Qed.

Lemma remove_shift_len cl n k : len (remove_shift cl n k) = len cl.
Proof. revert cl k. induction n as [|n IH]; intros cl k; simpl; [done|]. by rewrite IH. Qed.

Lemma remove_shift_length cl n k :
  length (chunks (remove_shift cl n k)) = length (chunks cl).
Proof.
  revert cl k. induction n as [|n IH]; intros cl k; simpl; [done|].
  rewrite IH. simpl. by rewrite length_insert.
Qed.

Lemma remove_shift_lookup cl n k j :
  (1 ≤ k)%nat → (k + n ≤ length (chunks cl))%nat →
  chunks (remove_shift cl n k) !! j
  = if decide (k - 1 ≤ j < k - 1 + n)%nat
    then chunks cl !! S j else chunks cl !! j.
Proof.
  revert cl k. induction n as [|n IH]; intros cl k Hk Hlen; simpl.
  { case_decide; [lia | done]. }
  rewrite IH by (simpl; rewrite ?length_insert; lia). simpl.
  assert (chunks cl !! k = Some (chunk_at cl k)) as Hck.
  { unfold chunk_at.
    destruct (lookup_lt_is_Some_2 (chunks cl) k) as [c ->]; [lia | done]. }
  repeat case_decide; try lia.
  - rewrite list_lookup_insert_ne by lia. done.
  - assert (j = (k - 1)%nat) as -> by lia.
    rewrite list_lookup_insert_eq by lia.
    rewrite <-Hck. f_equal. lia.
  - rewrite list_lookup_insert_ne by lia. done.
Qed.

Lemma remove_not_found cl start :
  micro_arena_chunk_list_get cl start = None →
  micro_arena_chunk_list_remove cl start = cl.
Proof.
  unfold micro_arena_chunk_list_get, micro_arena_chunk_list_remove.
  intros Hg. rewrite remove_scan_get_loop, Hg. simpl.
  by rewrite (proj2 (Nat.leb_le _ _) (Nat.le_refl _)).
Qed.

Lemma remove_found cl start i :
  micro_arena_chunk_list_get cl start = Some i →
  micro_arena_chunk_list_remove cl start =
    {| chunks := chunks (remove_shift cl (len cl - (i + 1)) (i + 1));
       len := (len cl - 1)%nat |}.
Proof.
  unfold micro_arena_chunk_list_get, micro_arena_chunk_list_remove.
  intros Hg. rewrite remove_scan_get_loop, Hg. simpl.
  apply get_loop_Some in Hg as (Hi & _).
  rewrite (proj2 (Nat.leb_gt _ _)) by lia.
  by rewrite remove_shift_len.
Qed.

Lemma visible_remove_found cl start i :
  (len cl ≤ length (chunks cl))%nat →
  micro_arena_chunk_list_get cl start = Some i →
  visible (micro_arena_chunk_list_remove cl start) = delete i (visible cl).
Proof.
  intros Hle Hg. rewrite (remove_found _ _ _ Hg).
  apply get_loop_Some in Hg as (Hi & _).
  unfold visible. simpl. apply list_eq. intros j.
  destruct (decide (j < len cl - 1)%nat) as [Hj|Hj].
  - rewrite lookup_take_lt by done.
    rewrite remove_shift_lookup by lia.
    destruct (decide (j < i)%nat).
    + rewrite list_lookup_delete_lt by done.
      rewrite lookup_take_lt by lia. case_decide; [lia | done].
    + rewrite list_lookup_delete_ge by lia.
      rewrite lookup_take_lt by lia. case_decide; [done | lia].
  - rewrite lookup_take_ge by lia. symmetry. apply lookup_ge_None_2.
    rewrite length_delete.
    + rewrite length_take_le by done. lia.
    + apply lookup_lt_is_Some_2. rewrite length_take_le by done. lia.
Qed.

(** The entries of the directory after [remove]: the first entry that
    starts at [start] is dropped, if there is one. *)
Lemma visible_remove cl start :
  (len cl ≤ length (chunks cl))%nat →
  visible (micro_arena_chunk_list_remove cl start)
  = match find_start start (visible cl) with
    | Some i => delete i (visible cl)
    | None => visible cl
    end.
Proof.
  intros Hle. rewrite <-get_find_start by done.
  destruct (micro_arena_chunk_list_get cl start) as [i|] eqn:Hg.
  - by apply visible_remove_found.
  - by rewrite remove_not_found.
Qed.

Lemma shape_remove cl start :
  list_shape cl → list_shape (micro_arena_chunk_list_remove cl start).
Proof.
  intros [Hl Hn].
  destruct (micro_arena_chunk_list_get cl start) as [i|] eqn:Hg.
  - rewrite (remove_found _ _ _ Hg). split; simpl; [|lia].
    by rewrite remove_shift_length.
  - by rewrite remove_not_found.
Qed.

Lemma visible_reset cl : visible (micro_arena_chunk_list_reset cl) = [].
Proof. done. Qed.

Lemma shape_reset cl :
  list_shape cl → list_shape (micro_arena_chunk_list_reset cl).
Proof. intros [Hl Hn]. split; simpl; [done | lia]. Qed.

End directory.

(** ** The arena routines seen through [visible] *)

Arguments wrap : simpl never.

Section arena.
Implicit Types (s : MicroArena) (c : MicroArenaChunk).
Implicit Types (i j k n u : nat).

Lemma find_fit_Some size (l : list MicroArenaChunk) i :
  find_fit size l = Some i ↔
  ∃ c, l !! i = Some c ∧ size ≤ chunk_size c
       ∧ ∀ j d, l !! j = Some d → (j < i)%nat → chunk_size d < size.
Proof.
  unfold find_fit. split.
  - destruct (list_find _ l) as [[k c]|] eqn:Hf; [|done].
    intros [= <-]. apply list_find_Some in Hf as (Hc & Hs & Hmin).
    exists c. split; [done|]. split; [done|].
    intros j d Hd Hj. specialize (Hmin j d Hd Hj). lia.
  - intros (c & Hc & Hs & Hmin).
    assert (list_find (λ c, size ≤ chunk_size c) l = Some (i, c)) as ->; [|done].
    apply list_find_Some. split; [done|]. split; [done|].
    intros j d Hd Hj. specialize (Hmin j d Hd Hj). lia.
Qed.

Lemma find_fit_None size (l : list MicroArenaChunk) :
  find_fit size l = None ↔ ∀ c, c ∈ l → chunk_size c < size.
Proof.
  unfold find_fit. rewrite fmap_None, list_find_None, Forall_forall.
  split; intros H c Hc; specialize (H c Hc); lia.
Qed.

(** *** init *)

Lemma init_visible ma s :
  ma ≠ NULL → arena_shape s →
  visible (free_chunks (micro_arena_init ma s))
    = [mkChunk ma MICRO_ARENA_STACK_MEM_SIZE]
  ∧ visible (used_chunks (micro_arena_init ma s)) = []
  ∧ mem (micro_arena_init ma s) = mem s
  ∧ arena_shape (micro_arena_init ma s).
Proof.
  intros Hma [Hf Hu]. unfold micro_arena_init.
  rewrite (proj2 (Z.eqb_neq _ _) Hma). simpl.
  pose proof max_num_chunks_gt_1 as Hmax.
  split; [|split; [done|split; [done|]]].
  - rewrite visible_add_room; [done | by apply shape_reset | simpl; lia].
  - split; simpl; [|by apply shape_reset].
    by apply shape_add, shape_reset.
Qed.

(** *** malloc *)

Lemma malloc_loop_skip size s n i :
  (∀ j, (i ≤ j < i + n)%nat → chunk_size (chunk_at (free_chunks s) j) < size) →
  malloc_loop size s n i = (s, NULL).
Proof.
  revert i. induction n as [|n IH]; intros i Hsmall; simpl; [done|].
  rewrite (proj2 (Z.ltb_lt _ _)) by (apply Hsmall; lia).
  apply IH. intros j Hj. apply Hsmall. lia.
Qed.

Lemma malloc_loop_reach size s n i k :
  (i ≤ k < i + n)%nat →
  (∀ j, (i ≤ j < k)%nat → chunk_size (chunk_at (free_chunks s) j) < size) →
  malloc_loop size s n i = malloc_loop size s (i + n - k) k.
Proof.
  revert i. induction n as [|n IH]; intros i Hk Hsmall; [lia|].
  destruct (decide (i = k)) as [->|Hne].
  - f_equal. lia.
  - simpl. rewrite (proj2 (Z.ltb_lt _ _)) by (apply Hsmall; lia).
    rewrite IH; [f_equal; lia | lia |]. intros j Hj. apply Hsmall. lia.
Qed.

Lemma malloc_loop_full size s n i :
  (MICRO_ARENA_MAX_NUM_CHUNKS ≤ len (used_chunks s) + 1)%nat →
  malloc_loop size s n i = (s, NULL).
Proof.
  intros Hfull. revert i. induction n as [|n IH]; intros i; simpl; [done|].
  destruct (_ <? _); [apply IH|]. by rewrite add_full.
Qed.

Lemma malloc_null size s : micro_arena_malloc NULL size s = (s, NULL).
Proof. done. Qed.

Lemma malloc_used_full ma size s :
  (MICRO_ARENA_MAX_NUM_CHUNKS ≤ len (used_chunks s) + 1)%nat →
  micro_arena_malloc ma size s = (s, NULL).
Proof.
  intros Hfull. unfold micro_arena_malloc.
  destruct (ma =? NULL); [done|]. by apply malloc_loop_full.
Qed.

Lemma malloc_no_fit ma size s :
  list_shape (free_chunks s) →
  find_fit size (visible (free_chunks s)) = None →
  micro_arena_malloc ma size s = (s, NULL).
Proof.
  intros Hshape Hnone. unfold micro_arena_malloc.
  destruct (ma =? NULL); [done|]. apply malloc_loop_skip. intros j Hj.
  apply (proj1 (find_fit_None _ _) Hnone).
  eapply list_elem_of_lookup_2. apply visible_chunk_at; [|lia].
  by apply shape_len_le.
Qed.

Lemma malloc_fit ma size s k c :
  ma ≠ NULL → arena_shape s →
  find_fit size (visible (free_chunks s)) = Some k →
  visible (free_chunks s) !! k = Some c →
  (len (used_chunks s) + 1 < MICRO_ARENA_MAX_NUM_CHUNKS)%nat →
  ∃ s', micro_arena_malloc ma size s = (s', chunk_start c)
    ∧ mem s' = mem s
    ∧ arena_shape s'
    ∧ visible (free_chunks s')
      = <[k := mkChunk (wrap (chunk_start c + size))
                  (wrap (chunk_size c - size))]> (visible (free_chunks s))
    ∧ visible (used_chunks s')
      = visible (used_chunks s) ++ [mkChunk (chunk_start c) size].
Proof.
  intros Hma [Hf Hu] Hfit Hc Hroom.
  apply find_fit_Some in Hfit as (c' & Hc' & Hsize & Hsmall).
  assert (c' = c) as -> by congruence. clear Hc'.
  pose proof (visible_lookup_len _ _ _ Hc) as Hk.
  pose proof (visible_lookup_chunk_at _ _ _ Hc) as Hat.
  unfold micro_arena_malloc. rewrite (proj2 (Z.eqb_neq _ _) Hma).
  rewrite (malloc_loop_reach size s _ 0 k); [|lia|].
  2:{ intros j Hj. apply (Hsmall j); [|lia].
      apply visible_chunk_at; [by apply shape_len_le | lia]. }
  destruct (0 + len (free_chunks s) - k)%nat as [|m] eqn:Hm; [lia|].
  simpl. rewrite Hat.
  rewrite (proj2 (Z.ltb_ge _ _)) by lia.
  rewrite add_room by done. simpl.
  eexists. split.
  { f_equal. unfold chunk_at. simpl.
    rewrite list_lookup_insert_eq; [done|]. destruct Hu as [-> ?]. lia. }
  split; [done|]. simpl. split; [|split].
  - split; simpl.
    + by do 2 apply shape_set_chunk.
    + destruct Hu as [Hl Hn]. split; simpl; [by rewrite length_insert | lia].
  - erewrite visible_set_size; last first.
    { erewrite visible_set_start by done.
      apply list_lookup_insert_eq. apply lookup_lt_Some in Hc. done. }
    simpl. erewrite visible_set_start by done.
    rewrite list_insert_insert_eq. do 3 f_equal.
    unfold set_start, set_chunk. unfold chunk_at at 1. simpl.
    rewrite list_lookup_insert_eq; [simpl; by rewrite Hat|].
    destruct Hf as [-> ?]. lia.
  - unfold visible. simpl.
    erewrite take_S_r; [|apply list_lookup_insert_eq; destruct Hu as [-> ?]; lia].
    by rewrite take_insert_ge.
Qed.

(** *** free *)

Lemma free_scan_last_match s u n i a0 b0 :
  free_scan s u n i a0 b0 =
    (last_match after_key
       (wrap (chunk_start (chunk_at (used_chunks s) u)
              + chunk_size (chunk_at (used_chunks s) u)))
       (free_chunks s) n i a0,
     last_match before_key (chunk_start (chunk_at (used_chunks s) u))
       (free_chunks s) n i b0).
Proof.
  revert i a0 b0. induction n as [|n IH]; intros i a0 b0; simpl; [done|].
  rewrite IH. unfold after_key, before_key. f_equal.
  f_equal. by rewrite Z.eqb_sym.
Qed.

Lemma last_match_spec key target cl n i acc :
  (last_match key target cl n i acc = acc
   ∧ ∀ j, (i ≤ j < i + n)%nat → key (chunk_at cl j) ≠ target)
  ∨ (∃ k, last_match key target cl n i acc = Some k
     ∧ (i ≤ k < i + n)%nat ∧ key (chunk_at cl k) = target
     ∧ ∀ j, (k < j < i + n)%nat → key (chunk_at cl j) ≠ target).
Proof.
  revert i acc. induction n as [|n IH]; intros i acc; simpl.
  { left. split; [done | intros; lia]. }
  destruct (Z.eqb_spec (key (chunk_at cl i)) target) as [Heq|Hne].
  - destruct (IH (S i) (Some i)) as [[Hr Hno]|(k & Hr & Hk & Hkey & Hno)].
    + right. exists i. split; [done|]. split; [lia|]. split; [done|].
      intros j Hj. apply Hno. lia.
    + right. exists k. split; [done|]. split; [lia|]. split; [done|].
      intros j Hj. apply Hno. lia.
  - destruct (IH (S i) acc) as [[Hr Hno]|(k & Hr & Hk & Hkey & Hno)].
    + left. split; [done|]. intros j Hj.
      destruct (decide (j = i)) as [->|]; [done|]. apply Hno. lia.
    + right. exists k. split; [done|]. split; [lia|]. split; [done|].
      intros j Hj. apply Hno. lia.
Qed.

Lemma last_match_scan_result key target cl :
  (len cl ≤ length (chunks cl))%nat →
  scan_result key target (visible cl)
    (last_match key target cl (len cl) 0 None).
Proof.
  intros Hle.
  destruct (last_match_spec key target cl (len cl) 0 None)
    as [[-> Hno]|(k & -> & Hk & Hkey & Hno)]; simpl.
  - intros c [j Hj]%list_elem_of_lookup_1.
    rewrite <-(visible_lookup_chunk_at _ _ _ Hj). apply Hno.
    apply visible_lookup_len in Hj. lia.
  - exists (chunk_at cl k). split; [apply visible_chunk_at; lia|].
    split; [done|]. intros j d Hd Hj.
    rewrite <-(visible_lookup_chunk_at _ _ _ Hd). apply Hno.
    apply visible_lookup_len in Hd. lia.
Qed.

Lemma free_null ptr s : micro_arena_free NULL ptr s = s.
Proof. done. Qed.

Lemma free_not_found ma ptr s :
  micro_arena_chunk_list_get (used_chunks s) ptr = None →
  micro_arena_free ma ptr s = s.
Proof.
  intros Hg. unfold micro_arena_free. destruct (ma =? NULL); [done|].
  by rewrite Hg.
Qed.

Lemma scan_result_total key target (l : list MicroArenaChunk) i :
  scan_result key target l (Some i) →
  l !! i = Some (l !!! i) ∧ key (l !!! i) = target.
Proof.
  intros (c & Hc & Hkey & _).
  by rewrite (list_lookup_total_correct _ _ _ Hc).
Qed.

Lemma free_found_scan ma ptr s u uc a b :
  ma ≠ NULL → arena_shape s →
  find_start ptr (visible (used_chunks s)) = Some u →
  visible (used_chunks s) !! u = Some uc →
  free_scan s u (len (free_chunks s)) 0 None None = (a, b) →
  scan_result after_key (wrap (chunk_start uc + chunk_size uc))
    (visible (free_chunks s)) a
  ∧ scan_result before_key (chunk_start uc) (visible (free_chunks s)) b
  ∧ mem (micro_arena_free ma ptr s) = mem s
  ∧ arena_shape (micro_arena_free ma ptr s)
  ∧ visible (used_chunks (micro_arena_free ma ptr s))
    = delete u (visible (used_chunks s))
  ∧ visible (free_chunks (micro_arena_free ma ptr s))
    = merged_free (visible (free_chunks s)) uc a b.
Proof.
  intros Hma [Hf Hu] Hfind Huc Hscan.
  pose proof (shape_len_le _ Hf) as Hfle.
  pose proof (shape_len_le _ Hu) as Hule.
  pose proof (visible_lookup_chunk_at _ _ _ Huc) as Hat.
  assert (chunk_start uc = ptr) as Hptr.
  { apply find_start_Some in Hfind as (c & Hc & Hs & _). congruence. }
  assert (visible (micro_arena_chunk_list_remove (used_chunks s) (chunk_start uc))
          = delete u (visible (used_chunks s))) as Hrem.
  { rewrite visible_remove by done. by rewrite Hptr, Hfind. }
  unfold micro_arena_free. rewrite (proj2 (Z.eqb_neq _ _) Hma).
  rewrite get_find_start, Hfind by done.
  rewrite Hscan. rewrite free_scan_last_match, Hat in Hscan.
  pose proof (last_match_scan_result after_key
    (wrap (chunk_start uc + chunk_size uc)) _ Hfle) as Ha.
  pose proof (last_match_scan_result before_key (chunk_start uc) _ Hfle) as Hb.
  injection Hscan as Ea Eb. rewrite Ea in Ha. rewrite Eb in Hb. clear Ea Eb.
  destruct a as [ia|], b as [ib|];
    (split; [exact Ha|]); (split; [exact Hb|]); simpl;
    rewrite ?Hat; (split; [done|]).
  - (* both neighbours *)
    apply scan_result_total in Ha as [Hca _].
    apply scan_result_total in Hb as [Hcb _].
    rewrite (visible_lookup_chunk_at _ _ _ Hca).
    rewrite (visible_lookup_chunk_at _ _ _ Hcb).
    set (v := wrap (_ + wrap _)).
    assert (chunk_at (set_size (free_chunks s) ib v) ib
            = mkChunk (chunk_start (visible (free_chunks s) !!! ib)) v) as Hat'.
    { unfold set_size, set_chunk. unfold chunk_at at 1. simpl.
      rewrite list_lookup_insert_eq.
      - simpl. by rewrite (visible_lookup_chunk_at _ _ _ Hcb).
      - apply visible_lookup_len in Hcb. lia. }
    rewrite Hat'. simpl.
    split; [|split; [done|]].
    + split; simpl; [by apply shape_remove, shape_set_chunk | by apply shape_remove].
    + rewrite visible_remove by (by apply shape_len_le, shape_set_chunk).
      by erewrite visible_set_size by done.
  - (* only the after-neighbour *)
    apply scan_result_total in Ha as [Hca _].
    split; [|split; [done|]].
    + split; simpl; [by do 2 apply shape_set_chunk | by apply shape_remove].
    + erewrite visible_set_size; last first.
      { erewrite visible_set_start by done.
        apply list_lookup_insert_eq. by apply lookup_lt_Some in Hca. }
      simpl. erewrite visible_set_start by done.
      rewrite list_insert_insert_eq. do 3 f_equal.
      unfold set_start, set_chunk. unfold chunk_at at 1. simpl.
      rewrite list_lookup_insert_eq.
      * simpl. by rewrite (visible_lookup_chunk_at _ _ _ Hca).
      * apply visible_lookup_len in Hca. lia.
  - (* only the before-neighbour *)
    apply scan_result_total in Hb as [Hcb _].
    rewrite (visible_lookup_chunk_at _ _ _ Hcb).
    split; [|split; [done|]].
    + split; simpl; [by apply shape_set_chunk | by apply shape_remove].
    + by erewrite visible_set_size by done.
  - (* no neighbour *)
    split; [|split; [done|]].
    + split; simpl; [by apply shape_add | by apply shape_remove].
    + rewrite visible_length by done.
      destruct (Nat.leb_spec MICRO_ARENA_MAX_NUM_CHUNKS
                  (len (free_chunks s) + 1)) as [Hfull|Hroom].
      * by rewrite add_full.
      * rewrite visible_add_room by done. by destruct uc.
Qed.

Lemma free_found ma ptr s u uc :
  ma ≠ NULL → arena_shape s →
  find_start ptr (visible (used_chunks s)) = Some u →
  visible (used_chunks s) !! u = Some uc →
  ∃ a b,
    scan_result after_key (wrap (chunk_start uc + chunk_size uc))
      (visible (free_chunks s)) a
    ∧ scan_result before_key (chunk_start uc) (visible (free_chunks s)) b
    ∧ mem (micro_arena_free ma ptr s) = mem s
    ∧ arena_shape (micro_arena_free ma ptr s)
    ∧ visible (used_chunks (micro_arena_free ma ptr s))
      = delete u (visible (used_chunks s))
    ∧ visible (free_chunks (micro_arena_free ma ptr s))
      = merged_free (visible (free_chunks s)) uc a b.
Proof.
  intros Hma Hs Hfind Huc.
  destruct (free_scan s u (len (free_chunks s)) 0 None None) as [a b] eqn:Hscan.
  exists a, b. by eapply free_found_scan.
Qed.

End arena.

(** ** Buffer writes leave the directories alone *)

Section buffer.
Implicit Types (s : MicroArena).

Lemma same_dirs_refl s : same_dirs s s.
Proof. done. Qed.

Lemma same_dirs_trans s1 s2 s3 :
  same_dirs s1 s2 → same_dirs s2 s3 → same_dirs s1 s3.
Proof. intros [??] [??]. split; congruence. Qed.

Lemma store_byte_with_mem ma s addr v : ∃ m, store_byte ma s addr v = with_mem s m.
Proof.
  unfold store_byte. destruct (_ && _); [by eexists|].
  exists (mem s). by destruct s.
Qed.

Lemma zero_loop_with_mem ma p s n i : ∃ m, zero_loop ma p s n i = with_mem s m.
Proof.
  revert s i. induction n as [|n IH]; intros s i; simpl.
  - exists (mem s). by destruct s.
  - destruct (store_byte_with_mem ma s (wrap (p + i)) 0) as [m ->].
    destruct (IH (with_mem s m) (i + 1)) as [m' ->]. by exists m'.
Qed.

Lemma copy_loop_with_mem ma dst src s n i :
  ∃ m, copy_loop ma dst src s n i = with_mem s m.
Proof.
  revert s i. induction n as [|n IH]; intros s i; simpl.
  - exists (mem s). by destruct s.
  - destruct (store_byte_with_mem ma s (wrap (dst + i))
                (load_byte ma s (wrap (src + i)))) as [m ->].
    destruct (IH (with_mem s m) (i + 1)) as [m' ->]. by exists m'.
Qed.

Lemma free_scan_with_mem s m u n i a b :
  free_scan (with_mem s m) u n i a b = free_scan s u n i a b.
Proof. revert i a b. induction n as [|n IH]; intros i a b; simpl; [done|]. by rewrite IH. Qed.

Lemma free_with_mem ma ptr s m :
  micro_arena_free ma ptr (with_mem s m) = with_mem (micro_arena_free ma ptr s) m.
Proof.
  unfold micro_arena_free. destruct (ma =? NULL); [done|]. simpl.
  destruct (micro_arena_chunk_list_get _ _) as [u|]; [|done].
  rewrite free_scan_with_mem.
  by destruct (free_scan _ _ _ _ _ _) as [[a|] [b|]].
Qed.

Lemma calloc_same_dirs ma nmemb size s :
  same_dirs (micro_arena_calloc ma nmemb size s).1
            (micro_arena_malloc ma (wrap (size * nmemb)) s).1.
Proof.
  unfold micro_arena_calloc. destruct (Z.eqb_spec ma NULL) as [->|Hma]; [done|].
  destruct (micro_arena_malloc _ _ _) as [s' m]. simpl.
  destruct (m =? NULL); [done|]. simpl.
  by destruct (zero_loop_with_mem ma m s' (Z.to_nat (wrap (nmemb * size))) 0)
    as [m' ->].
Qed.

(** The directories after [micro_arena_realloc] are those of the argument,
    of the allocation alone, or of the allocation followed by the release
    of [ptr]. *)
Lemma realloc_same_dirs ma ptr size s :
  same_dirs (micro_arena_realloc ma ptr size s).1 s
  ∨ same_dirs (micro_arena_realloc ma ptr size s).1
              (micro_arena_malloc ma size s).1
  ∨ same_dirs (micro_arena_realloc ma ptr size s).1
              (micro_arena_free ma ptr (micro_arena_malloc ma size s).1).
Proof.
  unfold micro_arena_realloc. destruct (ma =? NULL); [by left|].
  destruct (ptr =? NULL); [by right; left|].
  destruct (micro_arena_chunk_list_get _ _) as [u|]; [|by left].
  destruct (micro_arena_malloc _ _ _) as [s' m]. simpl.
  destruct (m =? NULL); [by right; left|]. simpl. right; right.
  match goal with |- context [copy_loop ?a ?b ?c ?d ?e ?f] =>
    destruct (copy_loop_with_mem a b c d e f) as [m' ->] end.
  by rewrite free_with_mem.
Qed.

End buffer.

(** ** Invariants of the transition system *)

Section preservation.
Variable ma : Z.
Variable Inv : MicroArena → Prop.
Variable Q : Z → Prop.
Variable G : MicroArena → Z → Prop.
Hypothesis Inv_dirs : ∀ s s', same_dirs s s' → Inv s' → Inv s.
Hypothesis Inv_shape : ∀ s, Inv s → arena_shape s.
Hypothesis Inv_init : ∀ s, arena_shape s → Inv (micro_arena_init ma s).
Hypothesis Inv_malloc :
  ∀ s size, Q size → Inv s → Inv (micro_arena_malloc ma size s).1.
Hypothesis Inv_free :
  ∀ s ptr, G s ptr → Inv s → Inv (micro_arena_free ma ptr s).

(** One operation keeps the invariant when its request satisfies [Q] and
    the release it may perform satisfies [G]. *)
Lemma Inv_step o s :
  (∀ z, op_request o = Some z → Q z) →
  (∀ s' ptr, op_release ma o s = Some (s', ptr) → G s' ptr) →
  Inv s → Inv (step ma o s).
Proof.
  intros HQ HG HI.
  destruct o as [|size|ptr|nmemb size|ptr size|ptr nmemb size]; simpl in *.
  - by apply Inv_init, Inv_shape.
  - apply Inv_malloc; [by apply HQ | done].
  - apply Inv_free; [by apply HG | done].
  - eapply Inv_dirs; [apply calloc_same_dirs|].
    apply Inv_malloc; [by apply HQ | done].
  - destruct (realloc_same_dirs ma ptr size s) as [H|[H|H]];
      (eapply Inv_dirs; [exact H|]).
    + done.
    + apply Inv_malloc; [by apply HQ | done].
    + apply Inv_free; [by apply HG|]. apply Inv_malloc; [by apply HQ | done].
  - unfold micro_arena_reallocarray.
    destruct (realloc_same_dirs ma ptr (wrap (nmemb * size)) s) as [H|[H|H]];
      (eapply Inv_dirs; [exact H|]).
    + done.
    + apply Inv_malloc; [by apply HQ | done].
    + apply Inv_free; [by apply HG|]. apply Inv_malloc; [by apply HQ | done].
Qed.

Lemma Inv_reachable_by (P : op → Prop) s :
  (∀ o z, P o → op_request o = Some z → Q z) →
  (∀ s' ptr, G s' ptr) →
  reachable_by P ma s → Inv s.
Proof.
  intros HP HG. induction 1 as [s0 Hs0|s o _ IH Ho].
  - by apply Inv_init.
  - apply Inv_step; [|by intros|done]. intros z. by apply HP.
Qed.

Lemma Inv_reachable_unmerged s :
  (∀ o z, op_valid o → op_nonzero o → op_request o = Some z → Q z) →
  (∀ s' ptr, ¬ finds_both s' ptr → G s' ptr) →
  reachable_unmerged ma s → Inv s.
Proof.
  intros HP HG. induction 1 as [s0 Hs0|s o _ IH Hv Hnz Hrel].
  - by apply Inv_init.
  - apply Inv_step; [| |done].
    + intros z. by apply HP.
    + intros s' ptr Hs'. by apply HG, Hrel.
Qed.

End preservation.

(** ** Every reachable arena is well formed *)

Ltac range_arith :=
  unfold in_buffer, chunk_end, is_word, after_key, before_key in *;
  simpl in *; lia.

Section wellformed.
Variable ma : Z.
Hypothesis ma_pos : 0 < ma.
Hypothesis ma_end : ma + MICRO_ARENA_STACK_MEM_SIZE < size_modulus.
Implicit Types (s : MicroArena) (c d : MicroArenaChunk).
Implicit Types (l : list MicroArenaChunk).

Lemma in_buffer_end_word c : in_buffer ma c → wrap (chunk_end c) = chunk_end c.
Proof. intros Hc. apply wrap_small. range_arith. Qed.

Lemma scan_result_ext key key' target l r :
  (∀ c, c ∈ l → key c = key' c) →
  scan_result key target l r → scan_result key' target l r.
Proof.
  intros Hext. destruct r as [i|]; simpl.
  - intros (c & Hc & Hkey & Hlast). exists c. split; [done|].
    split; [by rewrite <-Hext by (by eapply list_elem_of_lookup_2)|].
    intros j d Hd Hj. rewrite <-Hext by (by eapply list_elem_of_lookup_2).
    by eapply Hlast.
  - intros Hno c Hc. rewrite <-Hext by done. by apply Hno.
Qed.

Lemma scan_after_plain l uc a :
  in_buffer ma uc →
  scan_result after_key (wrap (chunk_start uc + chunk_size uc)) l a →
  scan_result chunk_start (chunk_end uc) l a.
Proof.
  intros Huc. fold (chunk_end uc). by rewrite in_buffer_end_word.
Qed.

Lemma scan_before_plain l uc b :
  Forall (in_buffer ma) l →
  scan_result before_key (chunk_start uc) l b →
  scan_result chunk_end (chunk_start uc) l b.
Proof.
  intros Hl. apply scan_result_ext. intros c Hc.
  unfold before_key. fold (chunk_end c). apply in_buffer_end_word.
  by eapply (proj1 (Forall_forall _ _) Hl).
Qed.

(** The three ways [micro_arena_free] rewrites a free entry, without
    [wrap]. *)
Lemma merged_free_plain l uc a b :
  Forall (in_buffer ma) l → in_buffer ma uc →
  scan_result chunk_start (chunk_end uc) l a →
  scan_result chunk_end (chunk_start uc) l b →
  merged_free l uc a b =
    match a, b with
    | Some ia, Some ib =>
      let l1 := <[ib := mkChunk (chunk_start (l !!! ib))
                   (chunk_size (l !!! ib) + chunk_size uc
                    + chunk_size (l !!! ia))]> l in
      match find_start (chunk_start (l !!! ib)) l1 with
      | Some k => delete k l1
      | None => l1
      end
    | None, Some ib =>
      <[ib := mkChunk (chunk_start (l !!! ib))
                (chunk_size (l !!! ib) + chunk_size uc)]> l
    | Some ia, None =>
      <[ia := mkChunk (chunk_start uc)
                (chunk_size (l !!! ia) + chunk_size uc)]> l
    | None, None =>
      if (MICRO_ARENA_MAX_NUM_CHUNKS <=? length l + 1)%nat then l
      else l ++ [mkChunk (chunk_start uc) (chunk_size uc)]
    end.
Proof.
  intros Hl Huc Ha Hb. unfold merged_free.
  destruct a as [ia|], b as [ib|]; [| | |done].
  - apply scan_result_total in Ha as [Hca Hka].
    apply scan_result_total in Hb as [Hcb Hkb].
    pose proof (Forall_lookup_1 _ _ _ _ Hl Hca) as Hia.
    pose proof (Forall_lookup_1 _ _ _ _ Hl Hcb) as Hib.
    rewrite (wrap_small (chunk_size uc + _)) by range_arith.
    rewrite wrap_small by range_arith.
    by rewrite Z.add_assoc.
  - apply scan_result_total in Ha as [Hca Hka].
    pose proof (Forall_lookup_1 _ _ _ _ Hl Hca) as Hia.
    by rewrite wrap_small by range_arith.
  - apply scan_result_total in Hb as [Hcb Hkb].
    pose proof (Forall_lookup_1 _ _ _ _ Hl Hcb) as Hib.
    by rewrite wrap_small by range_arith.
Qed.

Lemma merged_free_in_buffer l uc a b :
  Forall (in_buffer ma) l → in_buffer ma uc →
  scan_result chunk_start (chunk_end uc) l a →
  scan_result chunk_end (chunk_start uc) l b →
  Forall (in_buffer ma) (merged_free l uc a b).
Proof.
  intros Hl Huc Ha Hb. rewrite merged_free_plain by done.
  destruct a as [ia|], b as [ib|]; simpl.
  - apply scan_result_total in Ha as [Hca Hka].
    apply scan_result_total in Hb as [Hcb Hkb].
    pose proof (Forall_lookup_1 _ _ _ _ Hl Hca) as Hia.
    pose proof (Forall_lookup_1 _ _ _ _ Hl Hcb) as Hib.
    assert (Forall (in_buffer ma)
      (<[ib := mkChunk (chunk_start (l !!! ib))
          (chunk_size (l !!! ib) + chunk_size uc + chunk_size (l !!! ia))]> l)).
    { apply Forall_insert; [done|]. range_arith. }
    destruct (find_start _ _); [by apply Forall_delete | done].
  - apply scan_result_total in Ha as [Hca Hka].
    pose proof (Forall_lookup_1 _ _ _ _ Hl Hca) as Hia.
    apply Forall_insert; [done|]. range_arith.
  - apply scan_result_total in Hb as [Hcb Hkb].
    pose proof (Forall_lookup_1 _ _ _ _ Hl Hcb) as Hib.
    apply Forall_insert; [done|]. range_arith.
  - destruct (_ <=? _)%nat; [done|]. apply Forall_app. split; [done|].
    apply Forall_singleton. range_arith.
Qed.

Lemma wf_shape s : arena_wf ma s → arena_shape s.
Proof. by intros (_ & _ & ? & _). Qed.

Lemma wf_dirs s s' : same_dirs s s' → arena_wf ma s' → arena_wf ma s.
Proof.
  intros [Hf Hu] (? & ? & [??] & ? & ?). unfold arena_wf, arena_shape.
  rewrite Hf, Hu. done.
Qed.

Lemma wf_init s : arena_shape s → arena_wf ma (micro_arena_init ma s).
Proof.
  intros Hs. assert (ma ≠ NULL) as Hma by (unfold NULL; lia).
  destruct (init_visible ma s Hma Hs) as (Hf & Hu & _ & Hshape).
  split; [done|]. split; [done|]. split; [done|]. rewrite Hf, Hu.
  split; [|done]. apply Forall_singleton.
  unfold in_buffer, chunk_end, MICRO_ARENA_STACK_MEM_SIZE. simpl. lia.
Qed.

Lemma wf_malloc s size :
  is_word size → arena_wf ma s → arena_wf ma (micro_arena_malloc ma size s).1.
Proof.
  intros Hsize Hwf. pose proof Hwf as (_ & _ & Hshape & HF & HU).
  assert (ma ≠ NULL) as Hma by (unfold NULL; lia).
  destruct (find_fit size (visible (free_chunks s))) as [k|] eqn:Hfit.
  - destruct (Nat.leb_spec MICRO_ARENA_MAX_NUM_CHUNKS
                (len (used_chunks s) + 1)) as [Hfull|Hroom].
    { by rewrite malloc_used_full. }
    pose proof Hfit as (c & Hc & Hle & _)%find_fit_Some.
    destruct (malloc_fit ma size s k c Hma Hshape Hfit Hc Hroom)
      as (s' & -> & _ & Hshape' & Hf' & Hu').
    pose proof (Forall_lookup_1 _ _ _ _ HF Hc) as Hin.
    simpl. split; [done|]. split; [done|]. split; [done|].
    rewrite Hf', Hu'. split.
    + apply Forall_insert; [done|].
      rewrite !wrap_small by range_arith. range_arith.
    + apply Forall_app. split; [done|]. apply Forall_singleton. range_arith.
  - rewrite malloc_no_fit; [done | by destruct Hshape | done].
Qed.

Lemma wf_free s ptr : arena_wf ma s → arena_wf ma (micro_arena_free ma ptr s).
Proof.
  intros Hwf. pose proof Hwf as (_ & _ & Hshape & HF & HU).
  assert (ma ≠ NULL) as Hma by (unfold NULL; lia).
  destruct (find_start ptr (visible (used_chunks s))) as [u|] eqn:Hfind.
  - pose proof Hfind as (uc & Huc & _)%find_start_Some.
    pose proof (Forall_lookup_1 _ _ _ _ HU Huc) as Hin.
    destruct (free_found ma ptr s u uc Hma Hshape Hfind Huc)
      as (a & b & Ha & Hb & _ & Hshape' & Hu' & Hf').
    split; [done|]. split; [done|]. split; [done|].
    rewrite Hf', Hu'. split; [|by apply Forall_delete].
    apply merged_free_in_buffer;
      [done | done | by apply scan_after_plain | by apply scan_before_plain].
  - rewrite free_not_found; [done|].
    rewrite get_find_start; [done|]. apply shape_len_le. by destruct Hshape.
Qed.

(** X19.  Whatever the arguments of the calls, the arena stays well formed:
    the arrays keep their length, [len] stays within them, and every entry
    of either directory lies inside the buffer. *)
Lemma reachable_wf s : reachable ma s → arena_wf ma s.
Proof.
  apply (Inv_reachable_by ma (arena_wf ma) is_word (λ _ _, True));
    [| | | | | |done].
  - apply wf_dirs.
  - apply wf_shape.
  - apply wf_init.
  - apply wf_malloc.
  - intros s' ptr _. apply wf_free.
  - intros o z Ho Hz. destruct o; simpl in *; simplify_eq;
      try done; try apply wrap_is_word; tauto.
Qed.

End wellformed.

(** ** Lists whose entries are related two by two *)

Section pairwise_lists.
Context {A : Type} (R : A → A → Prop).
Implicit Types (l : list A) (i j : nat).

Lemma pairwise_nil : pairwise R [].
Proof. intros i j x y _ Hx. by rewrite lookup_nil in Hx. Qed.

Lemma pairwise_singleton x : pairwise R [x].
Proof.
  intros i j y z Hne Hy Hz.
  apply lookup_lt_Some in Hy. apply lookup_lt_Some in Hz. simpl in *. lia.
Qed.

Lemma lookup_delete_skip l i j :
  delete i l !! j = l !! (if decide (j < i)%nat then j else S j).
Proof.
  case_decide.
  - by apply list_lookup_delete_lt.
  - apply list_lookup_delete_ge. lia.
Qed.

Lemma elem_of_delete_lookup l i x :
  x ∈ delete i l → ∃ j, j ≠ i ∧ l !! j = Some x.
Proof.
  intros [j Hj]%list_elem_of_lookup_1. rewrite lookup_delete_skip in Hj.
  eexists. split; [|exact Hj]. case_decide; lia.
Qed.

Lemma elem_of_insert_lookup l i y x :
  x ∈ <[i := y]> l → x = y ∨ ∃ j, j ≠ i ∧ l !! j = Some x.
Proof.
  intros [j Hj]%list_elem_of_lookup_1.
  apply list_lookup_insert_Some in Hj as [(-> & -> & _)|[Hne Hj]]; eauto.
Qed.

Lemma delete_insert_same l i y : delete i (<[i := y]> l) = delete i l.
Proof.
  apply list_eq. intros j. rewrite !lookup_delete_skip.
  apply list_lookup_insert_ne. case_decide; lia.
Qed.

Lemma pairwise_delete l i : pairwise R l → pairwise R (delete i l).
Proof.
  intros Hl j1 j2 x y Hne Hx Hy. rewrite lookup_delete_skip in Hx, Hy.
  eapply Hl; [|exact Hx|exact Hy]. repeat case_decide; lia.
Qed.

Lemma pairwise_insert l i y :
  pairwise R l →
  (∀ j x, j ≠ i → l !! j = Some x → R x y ∧ R y x) →
  pairwise R (<[i := y]> l).
Proof.
  intros Hl Hy j1 j2 x1 x2 Hne H1 H2.
  apply list_lookup_insert_Some in H1 as [(-> & -> & _)|[Hn1 H1]];
    apply list_lookup_insert_Some in H2 as [(-> & -> & _)|[Hn2 H2]].
  - done.
  - by apply (Hy j2).
  - by apply (Hy j1).
  - exact (Hl j1 j2 x1 x2 Hne H1 H2).
Qed.

Lemma pairwise_snoc l y :
  pairwise R l → (∀ x, x ∈ l → R x y ∧ R y x) → pairwise R (l ++ [y]).
Proof.
  intros Hl Hy j1 j2 x1 x2 Hne H1 H2.
  apply lookup_snoc_Some in H1 as [[_ H1]|[-> <-]];
    apply lookup_snoc_Some in H2 as [[_ H2]|[-> <-]].
  - exact (Hl j1 j2 x1 x2 Hne H1 H2).
  - by apply Hy, (list_elem_of_lookup_2 _ j1).
  - by apply Hy, (list_elem_of_lookup_2 _ j2).
  - done.
Qed.

End pairwise_lists.

Lemma pairwise_unique_starts (l : list MicroArenaChunk) :
  pairwise (λ c d, chunk_start c ≠ chunk_start d) l → unique_starts l.
Proof.
  intros Hl. apply NoDup_alt. intros i j x Hi Hj.
  apply list_lookup_fmap_Some in Hi as (c & -> & Hc).
  apply list_lookup_fmap_Some in Hj as (d & Heq & Hd).
  destruct (decide (i = j)) as [|Hne]; [done|].
  by destruct (Hl i j c d Hne Hc Hd).
Qed.

(** ** The invariant of the directories under non-empty requests *)

Ltac chunk_arith :=
  unfold gap, separate, in_buffer, chunk_end, is_word in *; simpl in *; lia.

Section invariant.
Variable ma : Z.
Hypothesis ma_pos : 0 < ma.
Hypothesis ma_end : ma + MICRO_ARENA_STACK_MEM_SIZE < size_modulus.
Implicit Types (s : MicroArena) (c d : MicroArenaChunk).
Implicit Types (F U : list MicroArenaChunk).

Lemma dirs_inv_unique F U :
  dirs_inv ma F U → unique_starts F ∧ unique_starts U.
Proof.
  intros (HF & HU & Hpos & Hgap & Hsep & _). split.
  - apply pairwise_unique_starts. intros i j c d Hne Hc Hd.
    pose proof (Hgap i j c d Hne Hc Hd).
    pose proof (Forall_lookup_1 _ _ _ _ HF Hc).
    pose proof (Forall_lookup_1 _ _ _ _ HF Hd). chunk_arith.
  - apply pairwise_unique_starts. intros i j c d Hne Hc Hd.
    pose proof (Hsep i j c d Hne Hc Hd).
    pose proof (Forall_lookup_1 _ _ _ _ Hpos Hc).
    pose proof (Forall_lookup_1 _ _ _ _ Hpos Hd). chunk_arith.
Qed.

Lemma dirs_inv_init :
  dirs_inv ma [mkChunk ma MICRO_ARENA_STACK_MEM_SIZE] [].
Proof.
  split; [|split; [done|split; [done|split; [|split]]]].
  - apply Forall_singleton.
    unfold in_buffer, chunk_end, MICRO_ARENA_STACK_MEM_SIZE. simpl. lia.
  - apply pairwise_singleton.
  - apply pairwise_nil.
  - intros c d _ Hd. by apply elem_of_nil in Hd.
Qed.

Lemma dirs_inv_malloc F U k c size :
  dirs_inv ma F U → F !! k = Some c → 0 < size ≤ chunk_size c →
  dirs_inv ma
    (<[k := mkChunk (chunk_start c + size) (chunk_size c - size)]> F)
    (U ++ [mkChunk (chunk_start c) size]).
Proof.
  intros (HF & HU & Hpos & Hgap & Hsep & Hcross) Hc Hsize.
  pose proof (Forall_lookup_1 _ _ _ _ HF Hc) as Hin.
  assert (∀ d, d ∈ U → separate c d) as Hcd.
  { intros d Hd. apply Hcross; [|done]. by eapply list_elem_of_lookup_2. }
  split; [|split; [|split; [|split; [|split]]]].
  - apply Forall_insert; [done|]. chunk_arith.
  - apply Forall_app. split; [done|]. apply Forall_singleton. chunk_arith.
  - apply Forall_app. split; [done|]. apply Forall_singleton. simpl. lia.
  - apply pairwise_insert; [done|]. intros j x Hj Hx.
    pose proof (Hgap j k x c Hj Hx Hc).
    pose proof (Forall_lookup_1 _ _ _ _ HF Hx). chunk_arith.
  - apply pairwise_snoc; [done|]. intros d Hd.
    pose proof (Hcd d Hd).
    pose proof (proj1 (Forall_forall _ _) Hpos d Hd). chunk_arith.
  - intros x d Hx Hd.
    apply elem_of_app in Hd as [Hd| ->%list_elem_of_singleton];
      apply elem_of_insert_lookup in Hx as [->|(j & Hj & Hx)].
    + pose proof (Hcd d Hd). chunk_arith.
    + apply Hcross; [|done]. by eapply list_elem_of_lookup_2.
    + chunk_arith.
    + pose proof (Hgap j k x c Hj Hx Hc).
      pose proof (Forall_lookup_1 _ _ _ _ HF Hx). chunk_arith.
Qed.

(** With unique starts, the directory removal of the both-neighbours
    branch hits the very entry that was just enlarged. *)
Lemma merged_free_both F U uc ia ib :
  dirs_inv ma F U → in_buffer ma uc →
  scan_result chunk_start (chunk_end uc) F (Some ia) →
  scan_result chunk_end (chunk_start uc) F (Some ib) →
  merged_free F uc (Some ia) (Some ib) = delete ib F.
Proof.
  intros (HF & HU & Hpos & Hgap & Hsep & Hcross) Huc Ha Hb.
  rewrite (merged_free_plain ma) by done. simpl.
  apply scan_result_total in Hb as [Hcb Hkb].
  set (cb' := mkChunk _ _).
  assert (find_start (chunk_start (F !!! ib)) (<[ib := cb']> F) = Some ib)
    as ->; [|apply delete_insert_same].
  apply find_start_Some. exists cb'. split; [|split; [done|]].
  - apply list_lookup_insert_eq. by apply lookup_lt_Some in Hcb.
  - intros j d Hd Hj. rewrite list_lookup_insert_ne in Hd by lia.
    assert (j ≠ ib) as Hne by lia.
    pose proof (Hgap j ib d _ Hne Hd Hcb).
    pose proof (Forall_lookup_1 _ _ _ _ HF Hd).
    pose proof (Forall_lookup_1 _ _ _ _ HF Hcb). chunk_arith.
Qed.

Lemma dirs_inv_free F U u uc a b :
  dirs_inv ma F U → U !! u = Some uc →
  scan_result chunk_start (chunk_end uc) F a →
  scan_result chunk_end (chunk_start uc) F b →
  dirs_inv ma (merged_free F uc a b) (delete u U).
Proof.
  intros Hinv Huc Ha Hb.
  pose proof Hinv as (HF & HU & Hpos & Hgap & Hsep & Hcross).
  pose proof (Forall_lookup_1 _ _ _ _ HU Huc) as Hin.
  pose proof (Forall_lookup_1 _ _ _ _ Hpos Huc) as Hupos. simpl in Hupos.
  assert (∀ x, x ∈ F → separate x uc) as Hxu.
  { intros x Hx. apply Hcross; [done|]. by eapply list_elem_of_lookup_2. }
  assert (∀ d, d ∈ delete u U → d ∈ U ∧ separate uc d ∧ 0 < chunk_size d) as Hud.
  { intros d (j & Hj & Hd)%elem_of_delete_lookup.
    split; [by eapply list_elem_of_lookup_2|].
    assert (u ≠ j) as Hj' by lia.
    split; [exact (Hsep u j uc d Hj' Huc Hd)|].
    exact (Forall_lookup_1 _ _ _ _ Hpos Hd). }
  assert (Forall (in_buffer ma) (merged_free F uc a b)) as HF'
    by (by apply (merged_free_in_buffer ma)).
  split; [done|]. split; [by apply Forall_delete|].
  split; [by apply Forall_delete|].
  cut (pairwise gap (merged_free F uc a b)
       ∧ ∀ c d, c ∈ merged_free F uc a b → d ∈ delete u U → separate c d).
  { intros [??]. split; [done|]. split; [by apply pairwise_delete | done]. }
  clear HF'. destruct a as [ia|], b as [ib|].
  - rewrite (merged_free_both F U) by done. split.
    + by apply pairwise_delete.
    + intros c d Hc%list_elem_of_delete_inv Hd%list_elem_of_delete_inv.
      by apply Hcross.
  - rewrite (merged_free_plain ma) by done.
    pose proof Ha as [Hca Hka]%scan_result_total.
    pose proof (Forall_lookup_1 _ _ _ _ HF Hca) as Hia.
    simpl in Hb. split.
    + apply pairwise_insert; [done|]. intros j x Hj Hx.
      pose proof (Hgap j ia x _ Hj Hx Hca).
      pose proof (Forall_lookup_1 _ _ _ _ HF Hx).
      pose proof (Hxu x (list_elem_of_lookup_2 _ _ _ Hx)).
      pose proof (Hb x (list_elem_of_lookup_2 _ _ _ Hx)). chunk_arith.
    + intros c d Hc Hd. destruct (Hud d Hd) as (HdU & Hsd & Hdpos).
      apply elem_of_insert_lookup in Hc as [->|(j & Hj & Hc)].
      * pose proof (Hcross _ d (list_elem_of_lookup_2 _ _ _ Hca) HdU).
        chunk_arith.
      * apply Hcross; [|done]. by eapply list_elem_of_lookup_2.
  - rewrite (merged_free_plain ma) by done.
    pose proof Hb as [Hcb Hkb]%scan_result_total.
    pose proof (Forall_lookup_1 _ _ _ _ HF Hcb) as Hib.
    simpl in Ha. split.
    + apply pairwise_insert; [done|]. intros j x Hj Hx.
      pose proof (Hgap j ib x _ Hj Hx Hcb).
      pose proof (Forall_lookup_1 _ _ _ _ HF Hx).
      pose proof (Hxu x (list_elem_of_lookup_2 _ _ _ Hx)).
      pose proof (Ha x (list_elem_of_lookup_2 _ _ _ Hx)). chunk_arith.
    + intros c d Hc Hd. destruct (Hud d Hd) as (HdU & Hsd & Hdpos).
      apply elem_of_insert_lookup in Hc as [->|(j & Hj & Hc)].
      * pose proof (Hcross _ d (list_elem_of_lookup_2 _ _ _ Hcb) HdU).
        chunk_arith.
      * apply Hcross; [|done]. by eapply list_elem_of_lookup_2.
  - rewrite (merged_free_plain ma) by done. simpl in Ha, Hb.
    destruct (_ <=? _)%nat.
    { split; [done|]. intros c d Hc Hd%list_elem_of_delete_inv.
      by apply Hcross. }
    split.
    + apply pairwise_snoc; [done|]. intros x Hx.
      pose proof (Hxu x Hx). pose proof (Ha x Hx). pose proof (Hb x Hx).
      pose proof (proj1 (Forall_forall _ _) HF x Hx). chunk_arith.
    + intros c d Hc Hd. destruct (Hud d Hd) as (HdU & Hsd & Hdpos).
      apply elem_of_app in Hc as [Hc| ->%list_elem_of_singleton].
      * by apply Hcross.
      * chunk_arith.
Qed.

Lemma inv_wf s : arena_inv ma s → arena_wf ma s.
Proof. intros (? & ? & ? & ? & ? & _). done. Qed.

Lemma inv_shape s : arena_inv ma s → arena_shape s.
Proof. by intros (_ & _ & ? & _). Qed.

Lemma inv_dirs s s' : same_dirs s s' → arena_inv ma s' → arena_inv ma s.
Proof.
  intros [Hf Hu] (? & ? & [??] & ?). unfold arena_inv, arena_shape.
  rewrite Hf, Hu. done.
Qed.

Lemma inv_init s : arena_shape s → arena_inv ma (micro_arena_init ma s).
Proof.
  intros Hs. assert (ma ≠ NULL) as Hma by (unfold NULL; lia).
  destruct (init_visible ma s Hma Hs) as (Hf & Hu & _ & Hshape).
  split; [done|]. split; [done|]. split; [done|]. rewrite Hf, Hu.
  apply dirs_inv_init.
Qed.

Lemma inv_malloc s size :
  is_word size ∧ size ≠ 0 →
  arena_inv ma s → arena_inv ma (micro_arena_malloc ma size s).1.
Proof.
  intros [Hword Hnz] Hinv. pose proof Hinv as (_ & _ & Hshape & Hdirs).
  assert (ma ≠ NULL) as Hma by (unfold NULL; lia).
  destruct (find_fit size (visible (free_chunks s))) as [k|] eqn:Hfit.
  - destruct (Nat.leb_spec MICRO_ARENA_MAX_NUM_CHUNKS
                (len (used_chunks s) + 1)) as [Hfull|Hroom].
    { by rewrite malloc_used_full. }
    pose proof Hfit as (c & Hc & Hle & _)%find_fit_Some.
    destruct (malloc_fit ma size s k c Hma Hshape Hfit Hc Hroom)
      as (s' & -> & _ & Hshape' & Hf' & Hu').
    pose proof (Forall_lookup_1 _ _ _ _ (proj1 Hdirs) Hc) as Hin.
    simpl. split; [done|]. split; [done|]. split; [done|].
    rewrite Hf', Hu'. rewrite !wrap_small by range_arith.
    apply dirs_inv_malloc; [done | done |]. unfold is_word in Hword. lia.
  - rewrite malloc_no_fit; [done | by destruct Hshape | done].
Qed.

Lemma inv_free s ptr : arena_inv ma s → arena_inv ma (micro_arena_free ma ptr s).
Proof.
  intros Hinv. pose proof Hinv as (_ & _ & Hshape & Hdirs).
  pose proof Hdirs as (HF & HU & _).
  assert (ma ≠ NULL) as Hma by (unfold NULL; lia).
  destruct (find_start ptr (visible (used_chunks s))) as [u|] eqn:Hfind.
  - pose proof Hfind as (uc & Huc & _)%find_start_Some.
    pose proof (Forall_lookup_1 _ _ _ _ HU Huc) as Hin.
    destruct (free_found ma ptr s u uc Hma Hshape Hfind Huc)
      as (a & b & Ha & Hb & _ & Hshape' & Hu' & Hf').
    split; [done|]. split; [done|]. split; [done|].
    rewrite Hf', Hu'.
    apply dirs_inv_free;
      [done | done | by apply (scan_after_plain ma)
       | by apply (scan_before_plain ma)].
  - rewrite free_not_found; [done|].
    rewrite get_find_start; [done|]. apply shape_len_le. by destruct Hshape.
Qed.

(** As long as no call asks for zero bytes, the invariant holds in every
    state the arena goes through. *)
Lemma reachable_inv s :
  reachable_by (λ o, op_valid o ∧ op_nonzero o) ma s → arena_inv ma s.
Proof.
  apply (Inv_reachable_by ma (arena_inv ma) (λ z, is_word z ∧ z ≠ 0)
           (λ _ _, True)); [| | | | | |done].
  - apply inv_dirs.
  - apply inv_shape.
  - apply inv_init.
  - apply inv_malloc.
  - intros s' ptr _. apply inv_free.
  - intros o z [Ho Hnz] Hz. unfold op_nonzero in Hnz. rewrite Hz in Hnz.
    split; [|congruence].
    destruct o; simpl in *; simplify_eq;
      try done; try apply wrap_is_word; tauto.
Qed.

End invariant.

(** ** Shape and reachability along a run *)

Section runs.
Implicit Types (s : MicroArena) (o : op).

(** [micro_arena_init] never reads the [len] fields: on any object with
    arrays of the declared length it leaves the two directories in the
    initial configuration. *)
Lemma init_visible_arrays ma s :
  ma ≠ NULL → arena_arrays s →
  visible (free_chunks (micro_arena_init ma s))
    = [mkChunk ma MICRO_ARENA_STACK_MEM_SIZE]
  ∧ visible (used_chunks (micro_arena_init ma s)) = []
  ∧ arena_shape (micro_arena_init ma s).
Proof.
  intros Hma [Hf Hu]. unfold micro_arena_init.
  rewrite (proj2 (Z.eqb_neq _ _) Hma). simpl.
  pose proof max_num_chunks_gt_1 as Hmax.
  assert (list_shape (micro_arena_chunk_list_reset (free_chunks s))) as Hfs
    by (split; simpl; [done | lia]).
  assert (list_shape (micro_arena_chunk_list_reset (used_chunks s))) as Hus
    by (split; simpl; [done | lia]).
  split; [|split; [done|]].
  - rewrite visible_add_room; [done | done | simpl; lia].
  - split; simpl; [by apply shape_add | done].
Qed.

Lemma shape_init ma s : arena_shape s → arena_shape (micro_arena_init ma s).
Proof.
  intros Hs. destruct (decide (ma = NULL)) as [->|Hma]; [done|].
  by apply init_visible.
Qed.

Lemma shape_malloc ma size s :
  arena_shape s → arena_shape (micro_arena_malloc ma size s).1.
Proof.
  intros Hs. destruct (decide (ma = NULL)) as [->|Hma]; [done|].
  destruct (find_fit size (visible (free_chunks s))) as [k|] eqn:Hfit.
  - destruct (Nat.leb_spec MICRO_ARENA_MAX_NUM_CHUNKS
                (len (used_chunks s) + 1)) as [Hfull|Hroom].
    { by rewrite malloc_used_full. }
    pose proof Hfit as (c & Hc & _)%find_fit_Some.
    by destruct (malloc_fit ma size s k c Hma Hs Hfit Hc Hroom)
      as (s' & -> & _ & Hshape' & _).
  - rewrite malloc_no_fit; [done | by destruct Hs | done].
Qed.

Lemma shape_free ma ptr s :
  arena_shape s → arena_shape (micro_arena_free ma ptr s).
Proof.
  intros Hs. destruct (decide (ma = NULL)) as [->|Hma]; [done|].
  destruct (find_start ptr (visible (used_chunks s))) as [u|] eqn:Hfind.
  - pose proof Hfind as (uc & Huc & _)%find_start_Some.
    by destruct (free_found ma ptr s u uc Hma Hs Hfind Huc)
      as (a & b & _ & _ & _ & Hshape' & _).
  - rewrite free_not_found; [done|].
    rewrite get_find_start; [done|]. apply shape_len_le. by destruct Hs.
Qed.

Lemma shape_dirs s s' : same_dirs s s' → arena_shape s' → arena_shape s.
Proof. intros [Hf Hu]. unfold arena_shape. by rewrite Hf, Hu. Qed.

Lemma shape_run ma ops s : arena_shape s → arena_shape (run ma ops s).
Proof.
  revert s. induction ops as [|o ops IH]; intros s Hs; [done|].
  apply IH. apply (Inv_step ma arena_shape (λ _, True) (λ _ _, True));
    try done.
  - apply shape_dirs.
  - intros. by apply shape_init.
  - intros. by apply shape_malloc.
  - intros. by apply shape_free.
Qed.

Lemma reachable_by_run (P : op → Prop) ma ops s :
  reachable_by P ma s → Forall P ops → reachable_by P ma (run ma ops s).
Proof.
  revert s. induction ops as [|o ops IH]; intros s Hs Hops; [done|].
  apply Forall_cons in Hops as [Ho Hops]. simpl.
  apply IH; [|done]. by apply reach_step.
Qed.

Lemma blank_arena_shape : arena_shape blank_arena.
Proof.
  split; (split; simpl; [apply length_replicate | lia]).
Qed.

Lemma test_ma_end : test_ma + MICRO_ARENA_STACK_MEM_SIZE < size_modulus.
Proof. rewrite size_modulus_eq. reflexivity. Qed.

Lemma is_word_small z : 0 ≤ z < 4294967296 → is_word z.
Proof. unfold is_word. rewrite size_modulus_eq. lia. Qed.

End runs.

(** ** What [micro_arena_malloc] returns *)

Section malloc_outcome.
Variable ma : Z.
Implicit Types (s : MicroArena) (c : MicroArenaChunk).

(** Either nothing fits or the used directory is full, and the arena is
    returned as it was with a null pointer; or the first fitting free entry
    is split and its (non-null) start is returned. *)
Lemma malloc_cases size s :
  arena_wf ma s →
  ((find_fit size (visible (free_chunks s)) = None
    ∨ (MICRO_ARENA_MAX_NUM_CHUNKS ≤ len (used_chunks s) + 1)%nat)
   ∧ micro_arena_malloc ma size s = (s, NULL))
  ∨ (∃ k c s',
       find_fit size (visible (free_chunks s)) = Some k
       ∧ visible (free_chunks s) !! k = Some c
       ∧ (len (used_chunks s) + 1 < MICRO_ARENA_MAX_NUM_CHUNKS)%nat
       ∧ micro_arena_malloc ma size s = (s', chunk_start c)
       ∧ chunk_start c ≠ NULL
       ∧ visible (free_chunks s')
         = <[k := mkChunk (wrap (chunk_start c + size))
                     (wrap (chunk_size c - size))]> (visible (free_chunks s))
       ∧ visible (used_chunks s')
         = visible (used_chunks s) ++ [mkChunk (chunk_start c) size]).
Proof.
  intros (Hpos & Hend & Hshape & HF & HU).
  assert (ma ≠ NULL) as Hma by (unfold NULL; lia).
  destruct (find_fit size (visible (free_chunks s))) as [k|] eqn:Hfit.
  - destruct (Nat.leb_spec MICRO_ARENA_MAX_NUM_CHUNKS
                (len (used_chunks s) + 1)) as [Hfull|Hroom].
    { left. split; [by right | by apply malloc_used_full]. }
    right. pose proof Hfit as (c & Hc & _)%find_fit_Some.
    destruct (malloc_fit ma size s k c Hma Hshape Hfit Hc Hroom)
      as (s' & Hm & _ & _ & Hf' & Hu').
    exists k, c, s'. do 4 (split; [done|]). split; [|done].
    pose proof (Forall_lookup_1 _ _ _ _ HF Hc) as Hin.
    unfold in_buffer, NULL in *. lia.
  - left. split; [by left|].
    apply malloc_no_fit; [by destruct Hshape | done].
Qed.

Lemma malloc_null_unchanged size s :
  arena_wf ma s →
  (micro_arena_malloc ma size s).2 = NULL →
  (micro_arena_malloc ma size s).1 = s.
Proof.
  intros Hwf Hnull.
  destruct (malloc_cases size s Hwf)
    as [[_ Hm]|(k & c & s' & _ & _ & _ & Hm & Hnn & _)];
    rewrite Hm in *; simpl in *; done.
Qed.

End malloc_outcome.

(** ** What survives of the tiling, and what the both-neighbours branch does *)

Section tiling.
Variable ma : Z.
Hypothesis ma_pos : 0 < ma.
Hypothesis ma_end : ma + MICRO_ARENA_STACK_MEM_SIZE < size_modulus.
Implicit Types (s : MicroArena) (c d : MicroArenaChunk).

Lemma separate_disjoint c d : separate c d → disjoint_ranges c d.
Proof. intros Hsep a Hc Hd. unfold separate, covers in *. lia. Qed.

Lemma pairwise_app {A} (R : A → A → Prop) (l k : list A) :
  pairwise R l → pairwise R k →
  (∀ x y, x ∈ l → y ∈ k → R x y ∧ R y x) →
  pairwise R (l ++ k).
Proof.
  intros Hl Hk Hlk i j x y Hne Hx Hy.
  apply lookup_app_Some in Hx as [Hx|[Hi Hx]];
    apply lookup_app_Some in Hy as [Hy|[Hj Hy]].
  - exact (Hl i j x y Hne Hx Hy).
  - exact (proj1 (Hlk x y (list_elem_of_lookup_2 _ _ _ Hx)
                    (list_elem_of_lookup_2 _ _ _ Hy))).
  - exact (proj2 (Hlk y x (list_elem_of_lookup_2 _ _ _ Hy)
                    (list_elem_of_lookup_2 _ _ _ Hx))).
  - apply (Hk (i - length l)%nat (j - length l)%nat x y); [lia | done | done].
Qed.

Lemma dirs_inv_disjoint (F U : list MicroArenaChunk) :
  dirs_inv ma F U → pairwise disjoint_ranges (F ++ U).
Proof.
  intros (HF & HU & Hpos & Hgap & Hsep & Hcross). apply pairwise_app.
  - intros i j c d Hne Hc Hd. apply separate_disjoint.
    pose proof (Hgap i j c d Hne Hc Hd). unfold gap, separate in *. lia.
  - intros i j c d Hne Hc Hd. apply separate_disjoint.
    exact (Hsep i j c d Hne Hc Hd).
  - intros c d Hc Hd. pose proof (Hcross c d Hc Hd) as Hcd.
    split; apply separate_disjoint; unfold separate in *; lia.
Qed.

(** X20.  Without requests for zero bytes the ranges of the two directories
    never overlap and never leave the buffer. *)
Lemma ranges_disjoint_without_zero_requests s :
  reachable_by (λ o, op_valid o ∧ op_nonzero o) ma s →
  pairwise disjoint_ranges
    (visible (free_chunks s) ++ visible (used_chunks s))
  ∧ Forall (in_buffer ma) (visible (free_chunks s) ++ visible (used_chunks s)).
Proof.
  intros Hreach.
  destruct (reachable_inv ma ma_pos ma_end s Hreach) as (_ & _ & _ & Hdirs).
  split; [by apply dirs_inv_disjoint|].
  destruct Hdirs as (HF & HU & _). by apply Forall_app.
Qed.

(** X22.  In a state of the invariant, releasing a chunk that has a free entry
    right before it (slot [ib]) and one right after it removes the used
    entry and the free entry of slot [ib]; the after-neighbour keeps its
    old range and nothing else changes. *)
Lemma free_both_neighbours_drops_before ptr s u uc ia ib ca cb :
  arena_inv ma s →
  visible (used_chunks s) !! u = Some uc → chunk_start uc = ptr →
  visible (free_chunks s) !! ib = Some cb → chunk_end cb = ptr →
  visible (free_chunks s) !! ia = Some ca → chunk_start ca = chunk_end uc →
  visible (free_chunks (micro_arena_free ma ptr s))
    = delete ib (visible (free_chunks s))
  ∧ visible (used_chunks (micro_arena_free ma ptr s))
    = delete u (visible (used_chunks s)).
Proof.
  intros Hinv Huc Hptr Hcb Hbend Hca Hastart.
  pose proof Hinv as (_ & _ & Hshape & Hdirs).
  pose proof Hdirs as (HF & HU & Hpos & Hgap & Hsep & Hcross).
  destruct (dirs_inv_unique ma _ _ Hdirs) as [_ HndU].
  assert (ma ≠ NULL) as Hma by (unfold NULL; lia).
  assert (find_start ptr (visible (used_chunks s)) = Some u) as Hfind.
  { apply find_start_Some. exists uc. split; [done|]. split; [done|].
    intros j d Hd Hj Heq.
    assert (j = u); [|lia].
    apply (NoDup_lookup _ j u ptr HndU); rewrite list_lookup_fmap.
    - rewrite Hd. simpl. by rewrite Heq.
    - rewrite Huc. simpl. by rewrite Hptr. }
  pose proof (Forall_lookup_1 _ _ _ _ HU Huc) as Hin.
  destruct (free_found ma ptr s u uc Hma Hshape Hfind Huc)
    as (a & b & Ha & Hb & _ & _ & Hu' & Hf').
  apply (scan_after_plain ma ma_pos ma_end _ _ _ Hin) in Ha.
  apply (scan_before_plain ma ma_pos ma_end _ _ _ HF) in Hb.
  split; [|done]. rewrite Hf'.
  destruct a as [ia'|]; last first.
  { exfalso. apply (Ha ca); [by eapply list_elem_of_lookup_2 | done]. }
  destruct b as [ib'|]; last first.
  { exfalso. apply (Hb cb); [by eapply list_elem_of_lookup_2 | congruence]. }
  rewrite (merged_free_both ma ma_pos ma_end _ _ _ _ _ Hdirs Hin Ha Hb).
  f_equal. destruct Hb as (cb' & Hcb' & Hkey & _).
  destruct (decide (ib' = ib)) as [|Hne]; [done|]. exfalso.
  pose proof (Hgap ib' ib cb' cb Hne Hcb' Hcb).
  pose proof (Forall_lookup_1 _ _ _ _ HF Hcb).
  pose proof (Forall_lookup_1 _ _ _ _ HF Hcb').
  unfold gap, in_buffer, chunk_end in *. lia.
Qed.

End tiling.

(** ** The tiling holds as long as no release finds both neighbours *)

Lemma pairwise_NoDup_fmap {A B} (f : A → B) (l : list A) :
  pairwise (λ x y, f x ≠ f y) l → NoDup (f <$> l).
Proof.
  intros Hl. apply NoDup_alt. intros i j y Hi Hj.
  apply list_lookup_fmap_Some in Hi as (c & -> & Hc).
  apply list_lookup_fmap_Some in Hj as (d & Heq & Hd).
  destruct (decide (i = j)) as [|Hne]; [done|].
  by destruct (Hl i j c d Hne Hc Hd).
Qed.

Lemma elem_of_delete_ne {A} (l : list A) i j x :
  l !! j = Some x → j ≠ i → x ∈ delete i l.
Proof.
  intros Hx Hne.
  apply (list_elem_of_lookup_2 _ (if decide (j < i)%nat then j else (j - 1)%nat)).
  rewrite lookup_delete_skip. rewrite <-Hx. f_equal.
  repeat case_decide; lia.
Qed.

Section covering.
Variable ma : Z.
Hypothesis ma_pos : 0 < ma.
Hypothesis ma_end : ma + MICRO_ARENA_STACK_MEM_SIZE < size_modulus.
Implicit Types (s : MicroArena) (c d : MicroArenaChunk).
Implicit Types (F U : list MicroArenaChunk).

Lemma covered_init : covered ma ([mkChunk ma MICRO_ARENA_STACK_MEM_SIZE] ++ []).
Proof.
  intros x Hx. exists (mkChunk ma MICRO_ARENA_STACK_MEM_SIZE).
  split; [apply list_elem_of_here|]. unfold covers, chunk_end. simpl. lia.
Qed.

Lemma covered_malloc F U k c size :
  F !! k = Some c → 0 ≤ size ≤ chunk_size c →
  covered ma (F ++ U) →
  covered ma
    (<[k := mkChunk (chunk_start c + size) (chunk_size c - size)]> F
     ++ (U ++ [mkChunk (chunk_start c) size])).
Proof.
  intros Hc Hsize Hcov x Hx. destruct (Hcov x Hx) as (e & He & Hex).
  apply elem_of_app in He as [[j Hj]%list_elem_of_lookup_1|He].
  - destruct (decide (j = k)) as [->|Hne].
    + assert (e = c) as -> by congruence.
      destruct (decide (x < chunk_start c + size)).
      * exists (mkChunk (chunk_start c) size). split.
        -- apply elem_of_app. right. apply elem_of_app. right.
           by apply list_elem_of_singleton.
        -- unfold covers, chunk_end in *. simpl. lia.
      * exists (mkChunk (chunk_start c + size) (chunk_size c - size)). split.
        -- apply elem_of_app. left. apply (list_elem_of_lookup_2 _ k).
           apply list_lookup_insert_eq. by eapply lookup_lt_Some.
        -- unfold covers, chunk_end in *. simpl. lia.
    + exists e. split; [|done]. apply elem_of_app. left.
      apply (list_elem_of_lookup_2 _ j). by rewrite list_lookup_insert_ne.
  - exists e. split; [|done]. apply elem_of_app. right.
    apply elem_of_app. by left.
Qed.

(** When the released chunk touches no free entry, the free chunks are
    fewer than the used ones: each of them, and the released chunk, is
    followed by a used chunk of its own, the one at the end of the buffer
    apart. *)
Lemma free_count F U u uc :
  dirs_inv ma F U → covered ma (F ++ U) → U !! u = Some uc →
  (∀ c, c ∈ F → chunk_start c ≠ chunk_end uc) →
  (∀ c, c ∈ F → chunk_end c ≠ chunk_start uc) →
  (length F + 1 ≤ length U)%nat.
Proof.
  intros (HF & HU & Hpos & Hgap & Hsep & Hcross) Hcov Huc Ha Hb.
  pose proof (Forall_lookup_1 _ _ _ _ HU Huc) as Hin.
  pose proof (Forall_lookup_1 _ _ _ _ Hpos Huc) as Hupos. simpl in Hupos.
  assert (uc ∈ U) as HucU by (by eapply list_elem_of_lookup_2).
  assert (NoDup (chunk_end <$> uc :: F)) as Hnd.
  { rewrite fmap_cons. apply NoDup_cons. split.
    - intros (c & Heq & Hc)%list_elem_of_fmap.
      pose proof (Hcross c uc Hc HucU). pose proof (Ha c Hc).
      pose proof (proj1 (Forall_forall _ _) HF c Hc).
      unfold separate, in_buffer, chunk_end in *. lia.
    - apply pairwise_NoDup_fmap. intros i j c d Hne Hc Hd.
      pose proof (Hgap i j c d Hne Hc Hd).
      pose proof (Forall_lookup_1 _ _ _ _ HF Hc).
      pose proof (Forall_lookup_1 _ _ _ _ HF Hd).
      unfold gap, in_buffer, chunk_end in *. lia. }
  assert (∀ e, e ∈ chunk_end <$> uc :: F →
            e ∈ (ma + MICRO_ARENA_STACK_MEM_SIZE)
                :: (chunk_start <$> delete u U)) as Hsub.
  { intros e (x & -> & Hx)%list_elem_of_fmap.
    assert (in_buffer ma x) as Hxin.
    { apply elem_of_cons in Hx as [->|Hx]; [done|].
      by apply (proj1 (Forall_forall _ _) HF). }
    destruct (decide (chunk_end x = ma + MICRO_ARENA_STACK_MEM_SIZE))
      as [->|Hnot]; [apply list_elem_of_here|].
    apply list_elem_of_further.
    destruct (Hcov (chunk_end x)) as (e & He & Hcovers).
    { unfold in_buffer, chunk_end in *. lia. }
    assert (∃ j, U !! j = Some e ∧ j ≠ u ∧ chunk_start e = chunk_end x)
      as (j & Hj & Hne & <-).
    { apply elem_of_app in He as [HeF|[j Hj]%list_elem_of_lookup_1].
      - exfalso. pose proof (proj1 (Forall_forall _ _) HF e HeF) as Hein.
        apply elem_of_cons in Hx as [->|Hx].
        + pose proof (Hcross e uc HeF HucU). pose proof (Ha e HeF).
          unfold separate, covers, in_buffer, chunk_end in *. lia.
        + apply list_elem_of_lookup_1 in HeF as [i Hi].
          apply list_elem_of_lookup_1 in Hx as [i' Hi'].
          destruct (decide (i = i')) as [->|Hii].
          * assert (e = x) as -> by congruence.
            unfold covers in Hcovers. lia.
          * pose proof (Hgap i i' e x Hii Hi Hi').
            unfold gap, covers, in_buffer, chunk_end in *. lia.
      - exists j. split; [done|].
        pose proof (Forall_lookup_1 _ _ _ _ HU Hj) as Hein.
        apply elem_of_cons in Hx as [->|Hx].
        + destruct (decide (j = u)) as [->|Hne].
          { assert (e = uc) as -> by congruence.
            unfold covers in Hcovers. lia. }
          split; [done|]. assert (u ≠ j) as Hne' by lia.
          pose proof (Hsep u j uc e Hne' Huc Hj).
          unfold separate, covers, in_buffer, chunk_end in *. lia.
        + pose proof (Hcross x e Hx (list_elem_of_lookup_2 _ _ _ Hj)).
          pose proof (Hb x Hx).
          assert (chunk_start e = chunk_end x) as Hstart
            by (unfold separate, covers, in_buffer, chunk_end in *; lia).
          split; [|done]. intros ->.
          assert (e = uc) as -> by congruence. congruence. }
    apply list_elem_of_fmap. exists e. split; [done|].
    by eapply elem_of_delete_ne. }
  pose proof (submseteq_length _ _ (NoDup_submseteq _ _ Hnd Hsub)) as Hlen.
  simpl in Hlen. rewrite !length_fmap in Hlen.
  rewrite length_delete in Hlen by (by eexists).
  apply lookup_lt_Some in Huc. lia.
Qed.

Lemma covered_free F U u uc a b :
  dirs_inv ma F U → covered ma (F ++ U) → U !! u = Some uc →
  scan_result chunk_start (chunk_end uc) F a →
  scan_result chunk_end (chunk_start uc) F b →
  ¬ (is_Some a ∧ is_Some b) →
  (length U < MICRO_ARENA_MAX_NUM_CHUNKS)%nat →
  covered ma (merged_free F uc a b ++ delete u U).
Proof.
  intros Hinv Hcov Huc Ha Hb Hnot Hlen.
  pose proof Hinv as (HF & HU & Hpos & Hgap & Hsep & Hcross).
  pose proof (Forall_lookup_1 _ _ _ _ HU Huc) as Hin.
  rewrite (merged_free_plain ma) by done.
  (* the free entry that takes over the bytes of [uc] *)
  assert (∀ F' i y,
    (∀ x, covers uc x → covers y x) →
    (∀ c x, F !! i = Some c → covers c x → covers y x) →
    (i < length F)%nat →
    covered ma (<[i := y]> F ++ delete u U)) as Hinsert.
  { intros _ i y Huy Hiy Hi x Hx. destruct (Hcov x Hx) as (e & He & Hex).
    assert (y ∈ <[i := y]> F ++ delete u U) as Hy.
    { apply elem_of_app. left. apply (list_elem_of_lookup_2 _ i).
      by apply list_lookup_insert_eq. }
    apply elem_of_app in He as [[j Hj]%list_elem_of_lookup_1
                               |[j Hj]%list_elem_of_lookup_1].
    - destruct (decide (j = i)) as [->|Hne].
      + exists y. split; [done|]. by eapply Hiy.
      + exists e. split; [|done]. apply elem_of_app. left.
        apply (list_elem_of_lookup_2 _ j). by rewrite list_lookup_insert_ne.
    - destruct (decide (j = u)) as [->|Hne].
      + assert (e = uc) as -> by congruence. exists y. split; [done|].
        by apply Huy.
      + exists e. split; [|done]. apply elem_of_app. right.
        by eapply elem_of_delete_ne. }
  destruct a as [ia|], b as [ib|].
  - destruct Hnot. split; by eexists.
  - apply scan_result_total in Ha as [Hca Hka].
    apply (Hinsert F).
    + intros x Hx. unfold covers, chunk_end in *. simpl.
      pose proof (Forall_lookup_1 _ _ _ _ HF Hca).
      unfold in_buffer in *. lia.
    + intros c x Hc Hx. assert (c = F !!! ia) as -> by congruence.
      unfold covers, chunk_end, in_buffer in *. simpl. lia.
    + by eapply lookup_lt_Some.
  - apply scan_result_total in Hb as [Hcb Hkb].
    apply (Hinsert F).
    + intros x Hx. unfold covers, chunk_end in *. simpl.
      pose proof (Forall_lookup_1 _ _ _ _ HF Hcb).
      unfold in_buffer in *. lia.
    + intros c x Hc Hx. assert (c = F !!! ib) as -> by congruence.
      unfold covers, chunk_end, in_buffer in *. simpl. lia.
    + by eapply lookup_lt_Some.
  - simpl in Ha, Hb.
    pose proof (free_count F U u uc Hinv Hcov Huc Ha Hb) as Hcount.
    rewrite (proj2 (Nat.leb_gt _ _)) by lia.
    intros x Hx. destruct (Hcov x Hx) as (e & He & Hex).
    apply elem_of_app in He as [He|[j Hj]%list_elem_of_lookup_1].
    + exists e. split; [|done]. apply elem_of_app. left.
      apply elem_of_app. by left.
    + destruct (decide (j = u)) as [->|Hne].
      * assert (e = uc) as -> by congruence.
        exists (mkChunk (chunk_start uc) (chunk_size uc)). split; [|done].
        apply elem_of_app. left. apply elem_of_app. right.
        by apply list_elem_of_singleton.
      * exists e. split; [|done]. apply elem_of_app. right.
        by eapply elem_of_delete_ne.
Qed.

Lemma tiled_shape s : arena_tiled ma s → arena_shape s.
Proof. intros [Hinv _]. by eapply inv_shape. Qed.

Lemma tiled_dirs s s' : same_dirs s s' → arena_tiled ma s' → arena_tiled ma s.
Proof.
  intros Hsame (Hinv & Hlen & Hcov). pose proof Hsame as [Hf Hu].
  split; [by eapply inv_dirs|]. by rewrite Hf, Hu.
Qed.

Lemma tiled_init s : arena_shape s → arena_tiled ma (micro_arena_init ma s).
Proof.
  intros Hs. assert (ma ≠ NULL) as Hma by (unfold NULL; lia).
  split; [by apply inv_init|].
  destruct (init_visible ma s Hma Hs) as (Hf & Hu & _ & [_ Hshape]).
  split.
  - rewrite <-(visible_length (used_chunks (micro_arena_init ma s)))
      by (by apply shape_len_le).
    rewrite Hu. simpl. pose proof max_num_chunks_gt_1. lia.
  - rewrite Hf, Hu. apply covered_init.
Qed.

Lemma tiled_malloc s size :
  is_word size ∧ size ≠ 0 →
  arena_tiled ma s → arena_tiled ma (micro_arena_malloc ma size s).1.
Proof.
  intros Hsize (Hinv & Hlen & Hcov).
  split; [by apply inv_malloc|].
  destruct (malloc_cases ma size s (inv_wf ma s Hinv))
    as [[_ Hm]|(k & c & s' & Hfit & Hc & Hroom & Hm & _ & Hf' & Hu')];
    rewrite Hm; simpl; [done|].
  pose proof (inv_malloc ma ma_pos ma_end s size Hsize Hinv) as Hinv'.
  rewrite Hm in Hinv'. simpl in Hinv'.
  pose proof (inv_shape ma s' Hinv') as [_ Hshape'].
  pose proof (inv_shape ma s Hinv) as [_ Hshape].
  apply find_fit_Some in Hfit as (c' & Hc' & Hle & _).
  assert (c' = c) as -> by congruence.
  destruct Hinv as (_ & _ & _ & HF & _).
  pose proof (Forall_lookup_1 _ _ _ _ HF Hc) as Hin.
  destruct Hsize as [Hword Hnz]. split.
  - rewrite <-(visible_length (used_chunks s')) by (by apply shape_len_le).
    rewrite Hu', length_app, visible_length by (by apply shape_len_le).
    simpl. lia.
  - rewrite Hf', Hu'. rewrite !wrap_small by range_arith.
    apply covered_malloc; [done | unfold is_word in *; lia | done].
Qed.

Lemma tiled_free s ptr :
  ¬ finds_both s ptr →
  arena_tiled ma s → arena_tiled ma (micro_arena_free ma ptr s).
Proof.
  intros Hguard (Hinv & Hlen & Hcov).
  split; [by apply inv_free|].
  pose proof Hinv as (_ & _ & Hshape & Hdirs).
  pose proof Hdirs as (HF & HU & _).
  pose proof Hshape as [Hfs Hus].
  assert (ma ≠ NULL) as Hma by (unfold NULL; lia).
  destruct (find_start ptr (visible (used_chunks s))) as [u|] eqn:Hfind;
    last first.
  { rewrite free_not_found; [done|].
    rewrite get_find_start; [done|]. by apply shape_len_le. }
  pose proof Hfind as (uc & Huc & _)%find_start_Some.
  pose proof (Forall_lookup_1 _ _ _ _ HU Huc) as Hin.
  destruct (free_scan s u (len (free_chunks s)) 0 None None)
    as [a b] eqn:Hscan.
  destruct (free_found_scan ma ptr s u uc a b Hma Hshape Hfind Huc Hscan)
    as (Ha & Hb & _ & [_ Hus'] & Hu' & Hf').
  apply (scan_after_plain ma ma_pos ma_end _ _ _ Hin) in Ha.
  apply (scan_before_plain ma ma_pos ma_end _ _ _ HF) in Hb.
  assert (length (visible (used_chunks s)) < MICRO_ARENA_MAX_NUM_CHUNKS)%nat
    as Hlen' by (by rewrite visible_length by (by apply shape_len_le)).
  split.
  - rewrite <-(visible_length (used_chunks (micro_arena_free ma ptr s)))
      by (by apply shape_len_le).
    rewrite Hu', length_delete by (by eexists). lia.
  - rewrite Hf', Hu'. apply covered_free; try done.
    intros [[ia ->] [ib ->]]. apply Hguard. exists u, ia, ib.
    split; [|done]. rewrite get_find_start; [done|]. by apply shape_len_le.
Qed.

(** X21.  With requests that are never for zero bytes and releases that never
    find both neighbours, the two directories tile the buffer: the slip of
    the both-neighbours branch is the only way out of the tiling. *)
Lemma tiles_without_merging_release s : reachable_unmerged ma s → tiles ma s.
Proof.
  intros Hreach.
  assert (arena_tiled ma s) as ((_ & _ & _ & Hdirs) & _ & Hcov).
  { revert Hreach.
    apply (Inv_reachable_unmerged ma (arena_tiled ma)
             (λ z, is_word z ∧ z ≠ 0) (λ s' ptr, ¬ finds_both s' ptr)).
    - apply tiled_dirs.
    - apply tiled_shape.
    - apply tiled_init.
    - apply tiled_malloc.
    - apply tiled_free.
    - intros o z Ho Hnz Hz. unfold op_nonzero in Hnz. rewrite Hz in Hnz.
      split; [|congruence].
      destruct o; simpl in *; simplify_eq;
        try done; try apply wrap_is_word; tauto.
    - done. }
  split; [by apply (dirs_inv_disjoint ma)|done].
Qed.

End covering.

(** * The claims *)

(** ** Concrete arenas used below *)

Lemma test_init_reachable (P : op → Prop) :
  reachable_by P test_ma (micro_arena_init test_ma blank_arena).
Proof. apply reach_init, blank_arena_shape. Qed.

Lemma test_main_run :
  test_main = run test_ma test_ops (micro_arena_init test_ma blank_arena).
Proof. vm_compute. reflexivity. Qed.

Lemma test_main_dirs :
  visible (free_chunks test_main) = [mkChunk (test_ma + 50) 4046]
  ∧ visible (used_chunks test_main) = [].
Proof. split; vm_compute; reflexivity. Qed.

Lemma full_arena_dirs :
  visible (free_chunks full_arena) = [mkChunk (test_ma + 1023) 3073]
  ∧ len (used_chunks full_arena) = (MICRO_ARENA_MAX_NUM_CHUNKS - 1)%nat
  ∧ micro_arena_malloc test_ma 1 full_arena = (full_arena, NULL).
Proof. split; [|split]; vm_compute; reflexivity. Qed.

Lemma full_arena_reachable : reachable test_ma full_arena.
Proof.
  apply reachable_by_run; [apply test_init_reachable|].
  apply Forall_replicate. simpl. by apply is_word_small.
Qed.

(** ** C1 *)

(** C1 (defect of the code).  The claim: when a free entry ends at [ptr]
    and another starts at [ptr + size], releasing [ptr] leaves one free
    entry that covers the three ranges.  The code enlarges the
    before-neighbour to that range and then removes that very entry.  At
    the last [micro_arena_free] of [src/test.c] the used chunk of 10 bytes
    at offset 40 has the free entry of offset 0 (40 bytes) before it and
    the free entry of offset 50 (4046 bytes) after it; after the call the
    free directory holds the after-neighbour alone, unchanged, and no entry
    of 4096 bytes at offset 0. *)
Theorem free_both_neighbours_in_test_main :
  let s := test_main_before_last_free.1 in
  let ptr := test_main_before_last_free.2 in
  ptr = test_ma + 40
  ∧ visible (used_chunks s) = [mkChunk (test_ma + 40) 10]
  ∧ visible (free_chunks s)
    = [mkChunk (test_ma + 50) 4046; mkChunk test_ma 40]
  ∧ visible (used_chunks (micro_arena_free test_ma ptr s)) = []
  ∧ visible (free_chunks (micro_arena_free test_ma ptr s))
    = [mkChunk (test_ma + 50) 4046]
  ∧ mkChunk test_ma 4096
    ∉ visible (free_chunks (micro_arena_free test_ma ptr s)).
Proof.
  assert (visible (free_chunks (micro_arena_free test_ma
            test_main_before_last_free.2 test_main_before_last_free.1))
          = [mkChunk (test_ma + 50) 4046]) as Hfree
    by (vm_compute; reflexivity).
  simpl. split; [vm_compute; reflexivity|].
  split; [vm_compute; reflexivity|].
  split; [vm_compute; reflexivity|].
  split; [vm_compute; reflexivity|].
  split; [exact Hfree|].
  rewrite Hfree. intros [=]%list_elem_of_singleton.
Qed.

(** ** C2 *)

(** C2 (defect of the code, the one of C1).  The claim: in every reachable
    state the ranges of the two directories are disjoint and their union is
    the whole buffer.  The calls of [src/test.c] lead to an arena whose
    only entry is the free chunk of 4046 bytes at offset 50: the first 50
    bytes of the buffer belong to no entry. *)
Theorem test_main_does_not_tile :
  reachable test_ma test_main
  ∧ visible (free_chunks test_main) ++ visible (used_chunks test_main)
    = [mkChunk (test_ma + 50) 4046]
  ∧ ¬ tiles test_ma test_main.
Proof.
  destruct test_main_dirs as [Hf Hu]. split; [|split].
  - rewrite test_main_run. apply reachable_by_run; [apply test_init_reachable|].
    unfold test_ops. repeat apply Forall_cons_2; try apply Forall_nil_2;
      simpl; apply is_word_small; unfold test_ma; lia.
  - by rewrite Hf, Hu.
  - intros [_ Hcov]. destruct (Hcov test_ma) as (c & Hc & Hcovers).
    { unfold test_ma, MICRO_ARENA_STACK_MEM_SIZE. lia. }
    rewrite Hf, Hu in Hc. apply list_elem_of_singleton in Hc as ->.
    unfold covers, chunk_end in Hcovers. simpl in Hcovers. lia.
Qed.

(** ** C3 *)

(** C3, as stated, fails: two requests for zero bytes are both served from
    the start of the first free entry, and the used directory then holds
    two entries with the same start. *)
Lemma zero_requests_share_a_start :
  reachable test_ma zero_arena
  ∧ visible (used_chunks zero_arena) = [mkChunk test_ma 0; mkChunk test_ma 0]
  ∧ ¬ (unique_starts (visible (free_chunks zero_arena))
       ∧ unique_starts (visible (used_chunks zero_arena))).
Proof.
  assert (visible (used_chunks zero_arena)
          = [mkChunk test_ma 0; mkChunk test_ma 0]) as Hu
    by (vm_compute; reflexivity).
  split; [|split; [done|]].
  - apply reachable_by_run; [apply test_init_reachable|].
    unfold zero_ops. repeat apply Forall_cons_2; try apply Forall_nil_2;
      simpl; apply is_word_small; lia.
  - intros [_ Hnd]. unfold unique_starts in Hnd. rewrite Hu in Hnd.
    simpl in Hnd. apply NoDup_cons in Hnd as [Hin _].
    apply Hin. by apply list_elem_of_singleton.
Qed.

(** C3 (amended).  In every state reached from [micro_arena_init] by calls
    of the public operations none of which asks for zero bytes, no two
    entries of the free directory start at the same address, and no two
    entries of the used directory do. *)
Theorem starts_unique_without_zero_requests ma s :
  0 < ma → ma + MICRO_ARENA_STACK_MEM_SIZE < size_modulus →
  reachable_by (λ o, op_valid o ∧ op_nonzero o) ma s →
  unique_starts (visible (free_chunks s))
  ∧ unique_starts (visible (used_chunks s)).
Proof.
  intros Hpos Hend Hreach.
  destruct (reachable_inv ma Hpos Hend s Hreach) as (_ & _ & _ & Hdirs).
  by apply (dirs_inv_unique ma).
Qed.

Lemma starts_unique_without_zero_requests_witness :
  unique_starts (visible (free_chunks test_arena_two_live))
  ∧ unique_starts (visible (used_chunks test_arena_two_live)).
Proof.
  apply (starts_unique_without_zero_requests test_ma).
  - reflexivity.
  - vm_compute. reflexivity.
  - apply reachable_by_run; [apply test_init_reachable|].
    repeat apply Forall_cons_2; try apply Forall_nil_2;
      (split; [vm_compute; split; [discriminate | reflexivity]|]);
      vm_compute; discriminate.
Defined.

(** ** C4 *)

(** C4, as stated, fails: after 1023 one-byte allocations the free entry
    still has 3073 bytes, yet a request for one byte returns the null
    pointer, because the used directory is full. *)
Lemma malloc_fails_with_fitting_free_entry :
  reachable test_ma full_arena
  ∧ ¬ ((micro_arena_malloc test_ma 1 full_arena).2 = NULL
       ↔ ∀ c, c ∈ visible (free_chunks full_arena) → chunk_size c < 1).
Proof.
  destruct full_arena_dirs as (Hf & _ & Hm).
  split; [apply full_arena_reachable|]. intros [Hsmall _].
  rewrite Hm, Hf in Hsmall.
  specialize (Hsmall eq_refl (mkChunk (test_ma + 1023) 3073)).
  simpl in Hsmall. apply Z.lt_nge in Hsmall; [|by apply list_elem_of_singleton].
  apply Hsmall. lia.
Qed.

(** C4 (amended).  On a well-formed arena [micro_arena_malloc] returns the
    null pointer exactly when no free entry has at least [size] bytes or
    the used directory is at capacity ([len + 1 >= MAX_NUM_CHUNKS]); when it
    returns the null pointer the arena is unchanged. *)
Theorem malloc_fails_iff_no_fit_or_used_full ma size s :
  arena_wf ma s →
  ((micro_arena_malloc ma size s).2 = NULL
   ↔ (∀ c, c ∈ visible (free_chunks s) → chunk_size c < size)
     ∨ (MICRO_ARENA_MAX_NUM_CHUNKS ≤ len (used_chunks s) + 1)%nat)
  ∧ ((micro_arena_malloc ma size s).2 = NULL
     → (micro_arena_malloc ma size s).1 = s).
Proof.
  intros Hwf. split; [|by apply malloc_null_unchanged].
  destruct (malloc_cases ma size s Hwf)
    as [[Hwhy Hm]|(k & c & s' & Hfit & Hc & Hroom & Hm & Hnn & _)];
    rewrite Hm; simpl.
  - split; [intros _|done].
    destruct Hwhy as [Hnone|Hfull]; [left|by right].
    by apply find_fit_None.
  - split; [done|]. intros [Hsmall|Hfull]; [|lia].
    apply find_fit_None in Hsmall. congruence.
Qed.

Lemma malloc_fails_iff_no_fit_or_used_full_witness :
  ((micro_arena_malloc test_ma 5000 one_arena).2 = NULL
   ↔ (∀ c, c ∈ visible (free_chunks one_arena) → chunk_size c < 5000)
     ∨ (MICRO_ARENA_MAX_NUM_CHUNKS ≤ len (used_chunks one_arena) + 1)%nat)
  ∧ ((micro_arena_malloc test_ma 5000 one_arena).2 = NULL
     → (micro_arena_malloc test_ma 5000 one_arena).1 = one_arena).
Proof.
  apply (malloc_fails_iff_no_fit_or_used_full test_ma 5000 one_arena).
  split; [reflexivity|]. split; [vm_compute; reflexivity|].
  split; [|split].
  - split; (split; [vm_compute; reflexivity|]);
      apply Nat.leb_le; vm_compute; reflexivity.
  - vm_compute. repeat constructor; discriminate.
  - vm_compute. repeat constructor; discriminate.
Defined.

(** ** C5 *)

(** C5, as stated, fails: in the full arena the free directory has an
    entry of 3073 bytes, and a request for one byte neither appends a used
    entry nor returns the start of that entry. *)
Lemma malloc_splits_nothing_when_used_full :
  ∃ k c,
    visible (free_chunks full_arena) !! k = Some c
    ∧ 1 ≤ chunk_size c
    ∧ (micro_arena_malloc test_ma 1 full_arena).2 ≠ chunk_start c
    ∧ visible (used_chunks (micro_arena_malloc test_ma 1 full_arena).1)
      ≠ visible (used_chunks full_arena) ++ [mkChunk (chunk_start c) 1]
    ∧ visible (free_chunks (micro_arena_malloc test_ma 1 full_arena).1)
      ≠ <[k := mkChunk (chunk_start c + 1) (chunk_size c - 1)]>
          (visible (free_chunks full_arena)).
Proof.
  destruct full_arena_dirs as (Hf & _ & Hm).
  exists 0%nat, (mkChunk (test_ma + 1023) 3073).
  rewrite Hm. cbn [fst snd]. rewrite Hf. clear Hm Hf.
  cbn [lookup list_lookup chunk_start chunk_size].
  split; [reflexivity|]. split; [lia|].
  split; [unfold NULL, test_ma; lia|]. split.
  - intros Heq. apply (f_equal length) in Heq.
    rewrite length_app in Heq. simpl in Heq. lia.
  - intros Heq. apply (f_equal (λ l, chunk_size <$> l)) in Heq.
    simpl in Heq. discriminate Heq.
Qed.

(** C5 (amended).  On a well-formed arena whose free directory has an
    entry of at least [size] bytes and whose used directory is not at
    capacity ([len + 1 < MAX_NUM_CHUNKS]), [micro_arena_malloc] takes the
    first such entry in directory order, appends the used entry
    [(start, size)], moves the start of the free entry forward by [size]
    and takes [size] off its size, the entry staying in its slot also when
    nothing remains of it, and returns [start]. *)
Theorem malloc_splits_first_fit ma size s :
  arena_wf ma s → is_word size →
  (∃ d, d ∈ visible (free_chunks s) ∧ size ≤ chunk_size d) →
  (len (used_chunks s) + 1 < MICRO_ARENA_MAX_NUM_CHUNKS)%nat →
  ∃ k c,
    visible (free_chunks s) !! k = Some c
    ∧ size ≤ chunk_size c
    ∧ (∀ j d, visible (free_chunks s) !! j = Some d → (j < k)%nat →
         chunk_size d < size)
    ∧ (micro_arena_malloc ma size s).2 = chunk_start c
    ∧ visible (used_chunks (micro_arena_malloc ma size s).1)
      = visible (used_chunks s) ++ [mkChunk (chunk_start c) size]
    ∧ visible (free_chunks (micro_arena_malloc ma size s).1)
      = <[k := mkChunk (chunk_start c + size) (chunk_size c - size)]>
          (visible (free_chunks s))
    ∧ length (visible (free_chunks (micro_arena_malloc ma size s).1))
      = length (visible (free_chunks s)).
Proof.
  intros Hwf Hword (d & Hd & Hfits) Hroom.
  pose proof Hwf as (Hpos & Hend & Hshape & HF & HU).
  destruct (malloc_cases ma size s Hwf)
    as [[Hwhy Hm]|(k & c & s' & Hfit & Hc & _ & Hm & _ & Hf' & Hu')].
  { destruct Hwhy as [Hnone|Hfull]; [|lia].
    pose proof (proj1 (find_fit_None _ _) Hnone d Hd). lia. }
  pose proof Hfit as (c' & Hc' & Hle & Hfirst)%find_fit_Some.
  assert (c' = c) as -> by congruence.
  pose proof (Forall_lookup_1 _ _ _ _ HF Hc) as Hin.
  exists k, c. rewrite Hm. simpl. do 4 (split; [done|]). split; [done|].
  rewrite Hf'. rewrite !wrap_small by range_arith.
  split; [done|]. apply length_insert.
Qed.

Lemma malloc_splits_first_fit_witness :
  ∃ k c,
    visible (free_chunks one_arena) !! k = Some c
    ∧ 10 ≤ chunk_size c
    ∧ (∀ j d, visible (free_chunks one_arena) !! j = Some d → (j < k)%nat →
         chunk_size d < 10)
    ∧ (micro_arena_malloc test_ma 10 one_arena).2 = chunk_start c
    ∧ visible (used_chunks (micro_arena_malloc test_ma 10 one_arena).1)
      = visible (used_chunks one_arena) ++ [mkChunk (chunk_start c) 10]
    ∧ visible (free_chunks (micro_arena_malloc test_ma 10 one_arena).1)
      = <[k := mkChunk (chunk_start c + 10) (chunk_size c - 10)]>
          (visible (free_chunks one_arena))
    ∧ length (visible (free_chunks (micro_arena_malloc test_ma 10 one_arena).1))
      = length (visible (free_chunks one_arena)).
Proof.
  apply (malloc_splits_first_fit test_ma 10 one_arena).
  - split; [reflexivity|]. split; [vm_compute; reflexivity|].
    split; [|split].
    + split; (split; [vm_compute; reflexivity|]);
        apply Nat.leb_le; vm_compute; reflexivity.
    + vm_compute. repeat constructor; discriminate.
    + vm_compute. repeat constructor; discriminate.
  - vm_compute. split; [discriminate | reflexivity].
  - exists (mkChunk (test_ma + 40) 4056). split.
    + vm_compute. apply list_elem_of_here.
    + vm_compute. discriminate.
  - apply Nat.ltb_lt. vm_compute. reflexivity.
Defined.

(** ** C6 *)

(** C6.  After [micro_arena_init] on an arena object (at a non-null
    address), whatever the object held, its [len] fields included, the free
    directory is the single entry that starts at the buffer and has the
    size of the buffer, and the used directory is empty; the same holds
    when [micro_arena_init] is called again after any calls of the public
    operations. *)
Theorem init_single_free_entry ma s ops :
  ma ≠ NULL → arena_arrays s →
  (visible (free_chunks (micro_arena_init ma s))
     = [mkChunk ma MICRO_ARENA_STACK_MEM_SIZE]
   ∧ visible (used_chunks (micro_arena_init ma s)) = [])
  ∧ (let t := run ma ops (micro_arena_init ma s) in
     visible (free_chunks (micro_arena_init ma t))
       = [mkChunk ma MICRO_ARENA_STACK_MEM_SIZE]
     ∧ visible (used_chunks (micro_arena_init ma t)) = []).
Proof.
  intros Hma Hs.
  destruct (init_visible_arrays ma s Hma Hs) as (Hf & Hu & Hshape).
  split; [done|]. simpl.
  assert (arena_shape (run ma ops (micro_arena_init ma s))) as Ht
    by (by apply shape_run).
  by destruct (init_visible ma _ Hma Ht) as (-> & -> & _).
Qed.

Lemma init_single_free_entry_witness :
  (visible (free_chunks (micro_arena_init test_ma garbage_arena))
     = [mkChunk test_ma MICRO_ARENA_STACK_MEM_SIZE]
   ∧ visible (used_chunks (micro_arena_init test_ma garbage_arena)) = [])
  ∧ (let t := run test_ma test_ops (micro_arena_init test_ma garbage_arena) in
     visible (free_chunks (micro_arena_init test_ma t))
       = [mkChunk test_ma MICRO_ARENA_STACK_MEM_SIZE]
     ∧ visible (used_chunks (micro_arena_init test_ma t)) = []).
Proof.
  apply (init_single_free_entry test_ma garbage_arena test_ops).
  - discriminate.
  - split; vm_compute; reflexivity.
Defined.

(** ** C7 *)

(** C7.  When no entry of the used directory starts at [ptr],
    [micro_arena_free] returns the arena as it was: lengths and contents of
    both directories (and the buffer) are unchanged. *)
Theorem free_unknown_pointer_is_noop ma ptr s :
  arena_shape s →
  (∀ c, c ∈ visible (used_chunks s) → chunk_start c ≠ ptr) →
  micro_arena_free ma ptr s = s.
Proof.
  intros [_ Hu] Hnone. apply free_not_found.
  rewrite get_find_start by (by apply shape_len_le).
  by apply find_start_None.
Qed.

Lemma free_unknown_pointer_is_noop_witness :
  micro_arena_free test_ma (test_ma + 7) one_arena = one_arena.
Proof.
  apply (free_unknown_pointer_is_noop test_ma (test_ma + 7) one_arena).
  - split; (split; [vm_compute; reflexivity|]);
      apply Nat.leb_le; vm_compute; reflexivity.
  - assert (visible (used_chunks one_arena) = [mkChunk test_ma 40]) as ->
      by (vm_compute; reflexivity).
    intros c Hc. apply list_elem_of_singleton in Hc. rewrite Hc.
    vm_compute. discriminate.
Defined.

(** ** C8 *)

(** C8.  On a well-formed arena, when [ptr] has an entry in the used
    directory and the [micro_arena_malloc] inside [micro_arena_realloc]
    returns the null pointer, [micro_arena_realloc] returns the null
    pointer and the arena as it was: the entry of [ptr] is still there and
    a later [micro_arena_free] of [ptr] does what it would have done
    before. *)
Theorem realloc_failure_keeps_arena ma ptr size s u :
  arena_wf ma s →
  micro_arena_chunk_list_get (used_chunks s) ptr = Some u →
  (micro_arena_malloc ma size s).2 = NULL →
  micro_arena_realloc ma ptr size s = (s, NULL)
  ∧ micro_arena_chunk_list_get
      (used_chunks (micro_arena_realloc ma ptr size s).1) ptr = Some u
  ∧ micro_arena_free ma ptr (micro_arena_realloc ma ptr size s).1
    = micro_arena_free ma ptr s.
Proof.
  intros Hwf Hget Hnull.
  pose proof (malloc_null_unchanged ma size s Hwf Hnull) as Hsame.
  assert (micro_arena_realloc ma ptr size s = (s, NULL)) as ->; [|done].
  unfold micro_arena_realloc. destruct (ma =? NULL); [done|].
  destruct (ptr =? NULL).
  - destruct (micro_arena_malloc ma size s) as [s' m]. simpl in *. congruence.
  - rewrite Hget. destruct (micro_arena_malloc ma size s) as [s' m].
    simpl in *. subst. done.
Qed.

Lemma realloc_failure_keeps_arena_witness :
  micro_arena_realloc test_ma test_ma 5000 one_arena = (one_arena, NULL)
  ∧ micro_arena_chunk_list_get
      (used_chunks (micro_arena_realloc test_ma test_ma 5000 one_arena).1)
      test_ma = Some 0%nat
  ∧ micro_arena_free test_ma test_ma
      (micro_arena_realloc test_ma test_ma 5000 one_arena).1
    = micro_arena_free test_ma test_ma one_arena.
Proof.
  apply (realloc_failure_keeps_arena test_ma test_ma 5000 one_arena 0).
  - split; [reflexivity|]. split; [vm_compute; reflexivity|].
    split; [|split].
    + split; (split; [vm_compute; reflexivity|]);
        apply Nat.leb_le; vm_compute; reflexivity.
    + vm_compute. repeat constructor; discriminate.
    + vm_compute. repeat constructor; discriminate.
  - vm_compute. reflexivity.
  - vm_compute. reflexivity.
Defined.

(** ** C9 *)

(** C9.  [micro_arena_chunk_list_add] returns the null pointer exactly when
    [len + 1 >= MAX_NUM_CHUNKS]; it then leaves the directory as it was.
    Otherwise the entries are the old ones followed by the new one and
    [len] grows by one.  A directory of at most [MAX_NUM_CHUNKS - 1] entries
    therefore never gets more. *)
Theorem add_fails_iff_at_capacity (cl : MicroArenaChunkList) start size :
  list_shape cl →
  ((micro_arena_chunk_list_add cl start size).2 = None
   ↔ (MICRO_ARENA_MAX_NUM_CHUNKS ≤ len cl + 1)%nat)
  ∧ ((micro_arena_chunk_list_add cl start size).2 = None
     → (micro_arena_chunk_list_add cl start size).1 = cl)
  ∧ ((micro_arena_chunk_list_add cl start size).2 ≠ None
     → visible (micro_arena_chunk_list_add cl start size).1
       = visible cl ++ [mkChunk start size]
     ∧ len (micro_arena_chunk_list_add cl start size).1 = S (len cl)
     ∧ (micro_arena_chunk_list_add cl start size).2 = Some (len cl))
  ∧ ((len cl ≤ MICRO_ARENA_MAX_NUM_CHUNKS - 1)%nat
     → (len (micro_arena_chunk_list_add cl start size).1
        ≤ MICRO_ARENA_MAX_NUM_CHUNKS - 1)%nat).
Proof.
  intros Hshape.
  destruct (Nat.leb_spec MICRO_ARENA_MAX_NUM_CHUNKS (len cl + 1))
    as [Hfull|Hroom].
  - rewrite add_full by done. simpl.
    split; [done|]. split; [done|]. split; [done|]. done.
  - pose proof (visible_add_room cl start size Hshape Hroom) as Hvis.
    rewrite add_room in * by done. simpl.
    split; [split; [done | lia]|]. split; [done|].
    split; [done|]. lia.
Qed.

Lemma add_fails_iff_at_capacity_witness :
  let cl := free_chunks one_arena in
  ((micro_arena_chunk_list_add cl 7 9).2 = None
   ↔ (MICRO_ARENA_MAX_NUM_CHUNKS ≤ len cl + 1)%nat)
  ∧ ((micro_arena_chunk_list_add cl 7 9).2 = None
     → (micro_arena_chunk_list_add cl 7 9).1 = cl)
  ∧ ((micro_arena_chunk_list_add cl 7 9).2 ≠ None
     → visible (micro_arena_chunk_list_add cl 7 9).1
       = visible cl ++ [mkChunk 7 9]
     ∧ len (micro_arena_chunk_list_add cl 7 9).1 = S (len cl)
     ∧ (micro_arena_chunk_list_add cl 7 9).2 = Some (len cl))
  ∧ ((len cl ≤ MICRO_ARENA_MAX_NUM_CHUNKS - 1)%nat
     → (len (micro_arena_chunk_list_add cl 7 9).1
        ≤ MICRO_ARENA_MAX_NUM_CHUNKS - 1)%nat).
Proof.
  apply (add_fails_iff_at_capacity (free_chunks one_arena) 7 9).
  split; [vm_compute; reflexivity|].
  apply Nat.leb_le; vm_compute; reflexivity.
Defined.

(** ** C10 *)

(** C10.  Called with a null arena pointer, [micro_arena_init] and
    [micro_arena_free] return with the object untouched, and
    [micro_arena_malloc], [micro_arena_calloc], [micro_arena_realloc] and
    [micro_arena_reallocarray] return the null pointer with the object
    untouched, whatever the object holds and whatever the other
    arguments. *)
Theorem null_arena_calls_do_nothing (s : MicroArena) (ptr size nmemb : Z) :
  micro_arena_init NULL s = s
  ∧ micro_arena_free NULL ptr s = s
  ∧ micro_arena_malloc NULL size s = (s, NULL)
  ∧ micro_arena_calloc NULL nmemb size s = (s, NULL)
  ∧ micro_arena_realloc NULL ptr size s = (s, NULL)
  ∧ micro_arena_reallocarray NULL ptr nmemb size s = (s, NULL).
Proof. repeat split. Qed.

(** * Further properties of the code *)

(** ** Concrete arenas of the scenario *)

Lemma concrete_shape (s : MicroArena) :
  length (chunks (free_chunks s)) = MICRO_ARENA_MAX_NUM_CHUNKS →
  (len (free_chunks s) <=? MICRO_ARENA_MAX_NUM_CHUNKS)%nat = true →
  length (chunks (used_chunks s)) = MICRO_ARENA_MAX_NUM_CHUNKS →
  (len (used_chunks s) <=? MICRO_ARENA_MAX_NUM_CHUNKS)%nat = true →
  arena_shape s.
Proof.
  intros Hf Hfl Hu Hul. split; (split; [done | by apply Nat.leb_le]).
Qed.

Lemma test_ops_nonzero :
  Forall (λ o, op_valid o ∧ op_nonzero o) test_ops_before_last_free.
Proof.
  unfold test_ops_before_last_free.
  repeat apply Forall_cons_2; try apply Forall_nil_2;
    (split; [simpl; apply is_word_small; unfold test_ma; lia|]);
    unfold op_nonzero; simpl; congruence.
Qed.

Lemma run_app ma (ops1 ops2 : list op) s :
  run ma (ops1 ++ ops2) s = run ma ops2 (run ma ops1 s).
Proof. unfold run. apply foldl_app. Qed.

Lemma test_arena_before_last_free_inv :
  arena_inv test_ma test_arena_before_last_free.
Proof.
  apply reachable_inv; [reflexivity | apply test_ma_end |].
  apply reachable_by_run; [apply test_init_reachable | apply test_ops_nonzero].
Qed.

Lemma test_arena_two_live_inv : arena_inv test_ma test_arena_two_live.
Proof.
  apply reachable_inv; [reflexivity | apply test_ma_end |].
  apply reachable_by_run; [apply test_init_reachable|].
  pose proof test_ops_nonzero as H. unfold test_ops_before_last_free in H.
  repeat (apply Forall_cons in H as [? H]).
  repeat apply Forall_cons_2; try apply Forall_nil_2; done.
Qed.

Lemma test_arena_three_live_inv : arena_inv test_ma test_arena_three_live.
Proof.
  apply reachable_inv; [reflexivity | apply test_ma_end |].
  apply reachable_by_run; [apply test_init_reachable|].
  pose proof test_ops_nonzero as H. unfold test_ops_before_last_free in H.
  repeat (apply Forall_cons in H as [? H]).
  repeat apply Forall_cons_2; try apply Forall_nil_2; done.
Qed.

Lemma one_arena_inv : arena_inv test_ma one_arena.
Proof.
  apply reachable_inv; [reflexivity | apply test_ma_end |].
  apply reachable_by_run; [apply test_init_reachable|].
  apply Forall_cons_2; [|apply Forall_nil_2].
  split; [simpl; apply is_word_small; lia|].
  unfold op_nonzero; simpl; congruence.
Qed.

Lemma test_arena_dirs :
  (visible (free_chunks test_arena_three_live) = [mkChunk (test_ma + 119) 3977]
   ∧ visible (used_chunks test_arena_three_live)
     = [mkChunk test_ma 40; mkChunk (test_ma + 40) 10; mkChunk (test_ma + 50) 69])
  ∧ (visible (free_chunks test_arena_two_live)
     = [mkChunk (test_ma + 119) 3977; mkChunk test_ma 40]
     ∧ visible (used_chunks test_arena_two_live)
       = [mkChunk (test_ma + 40) 10; mkChunk (test_ma + 50) 69])
  ∧ (visible (free_chunks test_arena_before_last_free)
     = [mkChunk (test_ma + 50) 4046; mkChunk test_ma 40]
     ∧ visible (used_chunks test_arena_before_last_free)
       = [mkChunk (test_ma + 40) 10]).
Proof. repeat split; vm_compute; reflexivity. Qed.

(** ** The chunk directory *)

Section directory_properties.
Implicit Types (cl : MicroArenaChunkList) (c d : MicroArenaChunk).
Implicit Types (i j : nat).

(** X1.  [micro_arena_chunk_list_remove] deletes the first entry that
    starts at [start], moves the later entries one slot down in their
    order and takes one off [len]; the other entries are untouched.  When
    no entry starts at [start] the directory is returned as it was. *)
Theorem remove_deletes_first_match cl start :
  (len cl ≤ length (chunks cl))%nat →
  (∀ i c,
     visible cl !! i = Some c → chunk_start c = start →
     (∀ j d, visible cl !! j = Some d → (j < i)%nat → chunk_start d ≠ start) →
     visible (micro_arena_chunk_list_remove cl start) = delete i (visible cl)
     ∧ len (micro_arena_chunk_list_remove cl start) = (len cl - 1)%nat
     ∧ length (chunks (micro_arena_chunk_list_remove cl start))
       = length (chunks cl))
  ∧ ((∀ c, c ∈ visible cl → chunk_start c ≠ start) →
     micro_arena_chunk_list_remove cl start = cl).
Proof.
  intros Hle. split.
  - intros i c Hc Hstart Hfirst.
    assert (micro_arena_chunk_list_get cl start = Some i) as Hget.
    { rewrite get_find_start by done. apply find_start_Some. eauto. }
    split; [by apply visible_remove_found|].
    rewrite (remove_found _ _ _ Hget). simpl.
    split; [done | apply remove_shift_length].
  - intros Hnone. apply remove_not_found.
    rewrite get_find_start by done. by apply find_start_None.
Qed.

Lemma remove_deletes_first_match_witness :
  let cl := used_chunks test_arena_three_live in
  (∀ i c,
     visible cl !! i = Some c → chunk_start c = test_ma + 40 →
     (∀ j d, visible cl !! j = Some d → (j < i)%nat →
        chunk_start d ≠ test_ma + 40) →
     visible (micro_arena_chunk_list_remove cl (test_ma + 40))
       = delete i (visible cl)
     ∧ len (micro_arena_chunk_list_remove cl (test_ma + 40)) = (len cl - 1)%nat
     ∧ length (chunks (micro_arena_chunk_list_remove cl (test_ma + 40)))
       = length (chunks cl))
  ∧ ((∀ c, c ∈ visible cl → chunk_start c ≠ test_ma + 40) →
     micro_arena_chunk_list_remove cl (test_ma + 40) = cl).
Proof.
  apply (remove_deletes_first_match (used_chunks test_arena_three_live)
           (test_ma + 40)).
  apply Nat.leb_le. vm_compute. reflexivity.
Defined.

(** X2.  [micro_arena_chunk_list_get] returns the slot of the first entry
    that starts at [start], and the null pointer exactly when no entry
    starts there. *)
Theorem get_finds_first_match cl start :
  (len cl ≤ length (chunks cl))%nat →
  (∀ i, micro_arena_chunk_list_get cl start = Some i ↔
     ∃ c, visible cl !! i = Some c ∧ chunk_start c = start
          ∧ ∀ j d, visible cl !! j = Some d → (j < i)%nat →
              chunk_start d ≠ start)
  ∧ (micro_arena_chunk_list_get cl start = None ↔
     ∀ c, c ∈ visible cl → chunk_start c ≠ start).
Proof.
  intros Hle. rewrite get_find_start by done. split.
  - intros i. apply find_start_Some.
  - apply find_start_None.
Qed.

Lemma get_finds_first_match_witness :
  let cl := used_chunks test_arena_three_live in
  (∀ i, micro_arena_chunk_list_get cl (test_ma + 40) = Some i ↔
     ∃ c, visible cl !! i = Some c ∧ chunk_start c = test_ma + 40
          ∧ ∀ j d, visible cl !! j = Some d → (j < i)%nat →
              chunk_start d ≠ test_ma + 40)
  ∧ (micro_arena_chunk_list_get cl (test_ma + 40) = None ↔
     ∀ c, c ∈ visible cl → chunk_start c ≠ test_ma + 40).
Proof.
  apply (get_finds_first_match (used_chunks test_arena_three_live)
           (test_ma + 40)).
  apply Nat.leb_le. vm_compute. reflexivity.
Defined.

Lemma delete_snoc_last {A} (l : list A) x : delete (length l) (l ++ [x]) = l.
Proof. induction l as [|y l IH]; simpl; [done | by rewrite IH]. Qed.

Lemma find_start_snoc start (l : list MicroArenaChunk) c :
  find_start start (l ++ [c])
  = match find_start start l with
    | Some i => Some i
    | None => if chunk_start c =? start then Some (length l) else None
    end.
Proof.
  destruct (find_start start l) as [i|] eqn:Hfind.
  - apply find_start_Some in Hfind as (d & Hd & Hs & Hfirst).
    apply find_start_Some. exists d. split; [by apply lookup_app_l_Some|].
    split; [done|]. intros j e He Hj. apply (Hfirst j e); [|done].
    apply lookup_lt_Some in Hd.
    by rewrite lookup_app_l in He by lia.
  - pose proof (proj1 (find_start_None _ _) Hfind) as Hnone.
    destruct (Z.eqb_spec (chunk_start c) start) as [Heq|Hne].
    + apply find_start_Some. exists c. split; [|split; [done|]].
      * rewrite lookup_app_r by done. by rewrite Nat.sub_diag.
      * intros j e He Hj. rewrite lookup_app_l in He by done.
        apply Hnone. by eapply list_elem_of_lookup_2.
    + apply find_start_None. intros e [He| ->%list_elem_of_singleton]%elem_of_app;
        [by apply Hnone | done].
Qed.

(** X3.  After a successful [micro_arena_chunk_list_add] of
    [(start, size)] a lookup of any address gives what it gave before when
    it found an entry, the new slot when it found none and the address is
    [start], and nothing otherwise; the new slot holds [(start, size)]. *)
Theorem get_after_add cl start size start' :
  list_shape cl → (len cl + 1 < MICRO_ARENA_MAX_NUM_CHUNKS)%nat →
  micro_arena_chunk_list_get (micro_arena_chunk_list_add cl start size).1 start'
  = match micro_arena_chunk_list_get cl start' with
    | Some i => Some i
    | None => if start =? start' then Some (len cl) else None
    end
  ∧ chunk_at (micro_arena_chunk_list_add cl start size).1 (len cl)
    = mkChunk start size.
Proof.
  intros Hshape Hroom. pose proof (shape_len_le _ Hshape) as Hle.
  pose proof (shape_add cl start size Hshape) as Hshape'.
  split.
  - rewrite !get_find_start by (by apply shape_len_le).
    rewrite visible_add_room by done. rewrite find_start_snoc. simpl.
    by rewrite visible_length by done.
  - rewrite add_room by done. unfold chunk_at. simpl.
    rewrite list_lookup_insert_eq; [done|]. destruct Hshape as [-> _]. lia.
Qed.

Lemma get_after_add_witness :
  let cl := used_chunks one_arena in
  micro_arena_chunk_list_get (micro_arena_chunk_list_add cl 7 9).1 7
  = match micro_arena_chunk_list_get cl 7 with
    | Some i => Some i
    | None => if 7 =? 7 then Some (len cl) else None
    end
  ∧ chunk_at (micro_arena_chunk_list_add cl 7 9).1 (len cl) = mkChunk 7 9.
Proof.
  apply (get_after_add (used_chunks one_arena) 7 9 7).
  - split; [vm_compute; reflexivity|]. apply Nat.leb_le. vm_compute. reflexivity.
  - apply Nat.ltb_lt. vm_compute. reflexivity.
Defined.

(** X4.  Adding an entry whose start is not in the directory and removing
    it again gives back the entries and the length the directory had. *)
Theorem remove_after_add cl start size :
  list_shape cl → (len cl + 1 < MICRO_ARENA_MAX_NUM_CHUNKS)%nat →
  (∀ c, c ∈ visible cl → chunk_start c ≠ start) →
  visible (micro_arena_chunk_list_remove
             (micro_arena_chunk_list_add cl start size).1 start)
  = visible cl
  ∧ len (micro_arena_chunk_list_remove
           (micro_arena_chunk_list_add cl start size).1 start)
    = len cl.
Proof.
  intros Hshape Hroom Hnone. pose proof (shape_len_le _ Hshape) as Hle.
  pose proof (shape_add cl start size Hshape) as Hshape'.
  assert (micro_arena_chunk_list_get
            (micro_arena_chunk_list_add cl start size).1 start
          = Some (len cl)) as Hget.
  { rewrite get_find_start by (by apply shape_len_le).
    rewrite visible_add_room by done. rewrite find_start_snoc.
    rewrite (proj2 (find_start_None _ _) Hnone). simpl.
    by rewrite Z.eqb_refl, visible_length. }
  split.
  - rewrite (visible_remove_found _ _ _ (shape_len_le _ Hshape') Hget).
    rewrite visible_add_room by done.
    rewrite <-(visible_length cl) by done. apply delete_snoc_last.
  - rewrite (remove_found _ _ _ Hget). rewrite add_room by done. simpl. lia.
Qed.

Lemma remove_after_add_witness :
  let cl := used_chunks one_arena in
  visible (micro_arena_chunk_list_remove
             (micro_arena_chunk_list_add cl 7 9).1 7)
  = visible cl
  ∧ len (micro_arena_chunk_list_remove
           (micro_arena_chunk_list_add cl 7 9).1 7)
    = len cl.
Proof.
  apply (remove_after_add (used_chunks one_arena) 7 9).
  - split; [vm_compute; reflexivity|]. apply Nat.leb_le. vm_compute. reflexivity.
  - apply Nat.ltb_lt. vm_compute. reflexivity.
  - assert (visible (used_chunks one_arena) = [mkChunk test_ma 40]) as ->
      by (vm_compute; reflexivity).
    intros c Hc. apply list_elem_of_singleton in Hc. rewrite Hc.
    vm_compute. discriminate.
Defined.

(** X5.  In a directory whose entries have distinct starts, a start that
    was removed is not found any more. *)
Theorem get_after_remove cl start :
  list_shape cl → unique_starts (visible cl) →
  micro_arena_chunk_list_get (micro_arena_chunk_list_remove cl start) start
  = None.
Proof.
  intros Hshape Hnd. pose proof (shape_len_le _ Hshape) as Hle.
  rewrite get_find_start by (by apply shape_len_le, shape_remove).
  apply find_start_None. intros c Hc Hstart.
  rewrite visible_remove in Hc by done.
  destruct (find_start start (visible cl)) as [i|] eqn:Hfind.
  - apply find_start_Some in Hfind as (d & Hd & Hs & _).
    apply elem_of_delete_lookup in Hc as (j & Hj & Hc). apply Hj.
    apply (NoDup_lookup _ j i start Hnd); rewrite list_lookup_fmap.
    + rewrite Hc. simpl. by rewrite Hstart.
    + rewrite Hd. simpl. by rewrite Hs.
  - by apply (proj1 (find_start_None _ _) Hfind c).
Qed.

Lemma get_after_remove_witness :
  micro_arena_chunk_list_get
    (micro_arena_chunk_list_remove (used_chunks test_arena_three_live)
       (test_ma + 40)) (test_ma + 40)
  = None.
Proof.
  apply (get_after_remove (used_chunks test_arena_three_live) (test_ma + 40)).
  - split; [vm_compute; reflexivity|]. apply Nat.leb_le. vm_compute. reflexivity.
  - destruct test_arena_dirs as [[_ ->] _]. unfold unique_starts. simpl.
    apply NoDup_alt. intros [|[|[|i]]] [|[|[|j]]] x; simpl;
      intros Hi Hj; try done; rewrite <-Hj in Hi; unfold test_ma in Hi;
      discriminate Hi.
Defined.

End directory_properties.

(** ** Allocation *)

Section allocation_properties.
Implicit Types (s : MicroArena) (c d : MicroArenaChunk).

Lemma malloc_loop_mem size s n i : mem (malloc_loop size s n i).1 = mem s.
Proof.
  revert i. induction n as [|n IH]; intros i; simpl; [done|].
  destruct (_ <? _); [apply IH|].
  by destruct (micro_arena_chunk_list_add _ _ _) as [uc [u|]].
Qed.

Lemma malloc_mem ma size s : mem (micro_arena_malloc ma size s).1 = mem s.
Proof.
  unfold micro_arena_malloc. destruct (ma =? NULL); [done|].
  apply malloc_loop_mem.
Qed.

Lemma free_mem ma ptr s : mem (micro_arena_free ma ptr s) = mem s.
Proof.
  unfold micro_arena_free. destruct (ma =? NULL); [done|].
  destruct (micro_arena_chunk_list_get _ _) as [u|]; [|done].
  by destruct (free_scan _ _ _ _ _ _) as [[a|] [b|]].
Qed.

(** X6.  [micro_arena_malloc] and [micro_arena_free] only edit the
    directories: whatever the arguments and the state of the arena, every
    byte of the buffer reads after the call what it read before. *)
Theorem malloc_and_free_keep_buffer ma size ptr s addr :
  load_byte ma (micro_arena_malloc ma size s).1 addr = load_byte ma s addr
  ∧ load_byte ma (micro_arena_free ma ptr s) addr = load_byte ma s addr.
Proof. unfold load_byte. by rewrite malloc_mem, free_mem. Qed.

(** X7.  On a well-formed arena a successful [micro_arena_malloc] returns
    the start of a range of [size] bytes that lies inside the buffer. *)
Theorem malloc_returns_range_in_buffer ma size s :
  arena_wf ma s →
  (micro_arena_malloc ma size s).2 ≠ NULL →
  ma ≤ (micro_arena_malloc ma size s).2
  ∧ ((micro_arena_malloc ma size s).2 + size
     ≤ ma + MICRO_ARENA_STACK_MEM_SIZE).
Proof.
  intros Hwf Hnn. pose proof Hwf as (_ & _ & _ & HF & _).
  destruct (malloc_cases ma size s Hwf)
    as [[_ Hm]|(k & c & s' & Hfit & Hc & _ & Hm & _)];
    rewrite Hm in *; simpl in *; [done|].
  apply find_fit_Some in Hfit as (c' & Hc' & Hle & _).
  assert (c' = c) as -> by congruence.
  pose proof (Forall_lookup_1 _ _ _ _ HF Hc) as Hin.
  unfold in_buffer, chunk_end in Hin. lia.
Qed.

Lemma malloc_returns_range_in_buffer_witness :
  test_ma ≤ (micro_arena_malloc test_ma 10 one_arena).2
  ∧ ((micro_arena_malloc test_ma 10 one_arena).2 + 10
     ≤ test_ma + MICRO_ARENA_STACK_MEM_SIZE).
Proof.
  apply (malloc_returns_range_in_buffer test_ma 10 one_arena).
  - apply inv_wf, one_arena_inv.
  - vm_compute. discriminate.
Defined.

(** X8.  In a state reached without requests for zero bytes, the range a
    successful [micro_arena_malloc] hands out overlaps no range that is
    still allocated. *)
Theorem malloc_returns_fresh_range ma size s d :
  arena_inv ma s → is_word size → size ≠ 0 →
  (micro_arena_malloc ma size s).2 ≠ NULL →
  d ∈ visible (used_chunks s) →
  (micro_arena_malloc ma size s).2 + size ≤ chunk_start d
  ∨ chunk_start d + chunk_size d ≤ (micro_arena_malloc ma size s).2.
Proof.
  intros Hinv Hword Hnz Hnn Hd.
  pose proof Hinv as (_ & _ & _ & HF & _ & _ & _ & _ & Hcross).
  destruct (malloc_cases ma size s (inv_wf ma s Hinv))
    as [[_ Hm]|(k & c & s' & Hfit & Hc & _ & Hm & _)];
    rewrite Hm in *; simpl in *; [done|].
  apply find_fit_Some in Hfit as (c' & Hc' & Hle & _).
  assert (c' = c) as -> by congruence.
  pose proof (Hcross c d (list_elem_of_lookup_2 _ _ _ Hc) Hd) as Hsep.
  unfold separate, chunk_end, is_word in *. lia.
Qed.

Lemma malloc_returns_fresh_range_witness :
  (micro_arena_malloc test_ma 10 one_arena).2 + 10
    ≤ chunk_start (mkChunk test_ma 40)
  ∨ chunk_start (mkChunk test_ma 40) + chunk_size (mkChunk test_ma 40)
    ≤ (micro_arena_malloc test_ma 10 one_arena).2.
Proof.
  apply (malloc_returns_fresh_range test_ma 10 one_arena (mkChunk test_ma 40)).
  - apply one_arena_inv.
  - apply is_word_small. lia.
  - discriminate.
  - vm_compute. discriminate.
  - assert (visible (used_chunks one_arena) = [mkChunk test_ma 40]) as ->
      by (vm_compute; reflexivity).
    apply list_elem_of_here.
Defined.

End allocation_properties.

(** ** Release *)

Section release_properties.
Variable ma : Z.
Implicit Types (s : MicroArena) (c d : MicroArenaChunk).

Lemma scan_result_Some_unique key target (l : list MicroArenaChunk) i j d :
  scan_result key target l (Some i) →
  l !! j = Some d → key d = target →
  (∀ j' d', l !! j' = Some d' → (j < j')%nat → key d' ≠ target) →
  i = j.
Proof.
  intros (c & Hc & Hkey & Hlast) Hd Hkd Hlast'.
  destruct (Nat.lt_trichotomy i j) as [Hlt|[->|Hgt]]; [|done|].
  - by destruct (Hlast j d Hd Hlt).
  - by destruct (Hlast' i c Hc Hgt).
Qed.

Lemma scan_result_None_unique key target (l : list MicroArenaChunk) r :
  scan_result key target l r →
  (∀ c, c ∈ l → key c ≠ target) → r = None.
Proof.
  intros Hr Hnone. destruct r as [i|]; [|done].
  destruct Hr as (c & Hc & Hkey & _).
  by destruct (Hnone c (list_elem_of_lookup_2 _ _ _ Hc)).
Qed.

(** What [micro_arena_free] does once the used entry and the outcome of
    the neighbour search are known, on a well-formed arena. *)
Lemma free_known_neighbours ptr s u uc :
  arena_wf ma s →
  visible (used_chunks s) !! u = Some uc → chunk_start uc = ptr →
  (∀ j d, visible (used_chunks s) !! j = Some d → (j < u)%nat →
     chunk_start d ≠ ptr) →
  ∃ a b,
    scan_result chunk_start (chunk_end uc) (visible (free_chunks s)) a
    ∧ scan_result chunk_end (chunk_start uc) (visible (free_chunks s)) b
    ∧ visible (used_chunks (micro_arena_free ma ptr s))
      = delete u (visible (used_chunks s))
    ∧ visible (free_chunks (micro_arena_free ma ptr s))
      = merged_free (visible (free_chunks s)) uc a b.
Proof.
  intros (Hpos & Hend & Hshape & HF & HU) Huc Hptr Hfirst.
  assert (ma ≠ NULL) as Hma by (unfold NULL; lia).
  assert (find_start ptr (visible (used_chunks s)) = Some u) as Hfind.
  { apply find_start_Some. eauto. }
  pose proof (Forall_lookup_1 _ _ _ _ HU Huc) as Hin.
  destruct (free_found ma ptr s u uc Hma Hshape Hfind Huc)
    as (a & b & Ha & Hb & _ & _ & Hu' & Hf').
  exists a, b.
  split; [by apply (scan_after_plain ma)|].
  split; [by apply (scan_before_plain ma)|]. done.
Qed.

(** X9.  Releasing a chunk that has a free entry ending where it starts,
    and no free entry starting where it ends, adds its size to that free
    entry in place and removes the used entry; nothing else changes in
    either directory. *)
Theorem free_extends_before_neighbour ptr s u uc ib cb :
  arena_wf ma s →
  visible (used_chunks s) !! u = Some uc → chunk_start uc = ptr →
  (∀ j d, visible (used_chunks s) !! j = Some d → (j < u)%nat →
     chunk_start d ≠ ptr) →
  visible (free_chunks s) !! ib = Some cb → chunk_end cb = ptr →
  (∀ j d, visible (free_chunks s) !! j = Some d → (ib < j)%nat →
     chunk_end d ≠ ptr) →
  (∀ c, c ∈ visible (free_chunks s) → chunk_start c ≠ chunk_end uc) →
  visible (free_chunks (micro_arena_free ma ptr s))
    = <[ib := mkChunk (chunk_start cb) (chunk_size cb + chunk_size uc)]>
        (visible (free_chunks s))
  ∧ visible (used_chunks (micro_arena_free ma ptr s))
    = delete u (visible (used_chunks s)).
Proof.
  intros Hwf Huc Hptr Hfirst Hcb Hcbend Hlast Hnoafter.
  destruct (free_known_neighbours ptr s u uc Hwf Huc Hptr Hfirst)
    as (a & b & Ha & Hb & Hu' & Hf').
  subst ptr. pose proof Hwf as (Hpos & Hend & _ & HF & HU).
  pose proof (Forall_lookup_1 _ _ _ _ HU Huc) as Hin.
  split; [|done]. rewrite Hf'.
  rewrite (merged_free_plain ma) by done.
  rewrite (scan_result_None_unique _ _ _ _ Ha Hnoafter).
  destruct b as [ib'|]; last first.
  { by destruct (Hb cb (list_elem_of_lookup_2 _ _ _ Hcb)). }
  assert (ib' = ib) as ->.
  { by eapply (scan_result_Some_unique _ _ _ _ _ _ Hb Hcb). }
  by rewrite (list_lookup_total_correct _ _ _ Hcb).
Qed.

(** X10.  Releasing a chunk that has a free entry starting where it ends,
    and no free entry ending where it starts, moves the start of that free
    entry back to the released chunk and adds the released size to it, in
    place, and removes the used entry. *)
Theorem free_extends_after_neighbour ptr s u uc ia ca :
  arena_wf ma s →
  visible (used_chunks s) !! u = Some uc → chunk_start uc = ptr →
  (∀ j d, visible (used_chunks s) !! j = Some d → (j < u)%nat →
     chunk_start d ≠ ptr) →
  visible (free_chunks s) !! ia = Some ca → chunk_start ca = chunk_end uc →
  (∀ j d, visible (free_chunks s) !! j = Some d → (ia < j)%nat →
     chunk_start d ≠ chunk_end uc) →
  (∀ c, c ∈ visible (free_chunks s) → chunk_end c ≠ ptr) →
  visible (free_chunks (micro_arena_free ma ptr s))
    = <[ia := mkChunk ptr (chunk_size ca + chunk_size uc)]>
        (visible (free_chunks s))
  ∧ visible (used_chunks (micro_arena_free ma ptr s))
    = delete u (visible (used_chunks s)).
Proof.
  intros Hwf Huc Hptr Hfirst Hca Hcastart Hlast Hnobefore.
  pose proof Hwf as (Hpos & Hend & _ & HF & HU).
  pose proof (Forall_lookup_1 _ _ _ _ HU Huc) as Hin.
  destruct (free_known_neighbours ptr s u uc Hwf Huc Hptr Hfirst)
    as (a & b & Ha & Hb & Hu' & Hf').
  subst ptr. split; [|done]. rewrite Hf'.
  rewrite (merged_free_plain ma) by done.
  rewrite (scan_result_None_unique _ _ _ _ Hb Hnobefore).
  destruct a as [ia'|]; last first.
  { by destruct (Ha ca (list_elem_of_lookup_2 _ _ _ Hca)). }
  assert (ia' = ia) as ->.
  { by eapply (scan_result_Some_unique _ _ _ _ _ _ Ha Hca). }
  by rewrite (list_lookup_total_correct _ _ _ Hca).
Qed.

(** X11.  Releasing a chunk that touches no free entry appends its range
    to the free directory when that directory has room; when the free
    directory is at capacity nothing is appended and the range is in no
    directory afterwards.  The used entry is removed in both cases. *)
Theorem free_without_neighbour ptr s u uc :
  arena_wf ma s →
  visible (used_chunks s) !! u = Some uc → chunk_start uc = ptr →
  (∀ j d, visible (used_chunks s) !! j = Some d → (j < u)%nat →
     chunk_start d ≠ ptr) →
  (∀ c, c ∈ visible (free_chunks s) → chunk_start c ≠ chunk_end uc) →
  (∀ c, c ∈ visible (free_chunks s) → chunk_end c ≠ ptr) →
  visible (used_chunks (micro_arena_free ma ptr s))
    = delete u (visible (used_chunks s))
  ∧ ((len (free_chunks s) + 1 < MICRO_ARENA_MAX_NUM_CHUNKS)%nat →
     visible (free_chunks (micro_arena_free ma ptr s))
     = visible (free_chunks s) ++ [mkChunk ptr (chunk_size uc)])
  ∧ ((MICRO_ARENA_MAX_NUM_CHUNKS ≤ len (free_chunks s) + 1)%nat →
     visible (free_chunks (micro_arena_free ma ptr s))
     = visible (free_chunks s)).
Proof.
  intros Hwf Huc Hptr Hfirst Hnoafter Hnobefore.
  pose proof Hwf as (Hpos & Hend & [[Hfl Hfn] _] & HF & HU).
  pose proof (Forall_lookup_1 _ _ _ _ HU Huc) as Hin.
  destruct (free_known_neighbours ptr s u uc Hwf Huc Hptr Hfirst)
    as (a & b & Ha & Hb & Hu' & Hf').
  subst ptr. split; [done|]. rewrite Hf'.
  rewrite (merged_free_plain ma) by done.
  rewrite (scan_result_None_unique _ _ _ _ Hb Hnobefore).
  rewrite (scan_result_None_unique _ _ _ _ Ha Hnoafter).
  rewrite visible_length by lia. split.
  - intros Hroom. by rewrite (proj2 (Nat.leb_gt _ _)) by lia.
  - intros Hfull. by rewrite (proj2 (Nat.leb_le _ _)) by lia.
Qed.

End release_properties.

Lemma free_extends_before_neighbour_witness :
  visible (free_chunks (micro_arena_free test_ma (test_ma + 40)
                          test_arena_two_live))
    = <[1%nat := mkChunk test_ma (40 + 10)]>
        (visible (free_chunks test_arena_two_live))
  ∧ visible (used_chunks (micro_arena_free test_ma (test_ma + 40)
                            test_arena_two_live))
    = delete 0%nat (visible (used_chunks test_arena_two_live)).
Proof.
  destruct test_arena_dirs as (_ & [Hf Hu] & _).
  apply (free_extends_before_neighbour test_ma (test_ma + 40)
           test_arena_two_live 0 (mkChunk (test_ma + 40) 10)
           1 (mkChunk test_ma 40)).
  - apply inv_wf, test_arena_two_live_inv.
  - rewrite Hu. reflexivity.
  - reflexivity.
  - intros j d _ Hj. lia.
  - rewrite Hf. reflexivity.
  - reflexivity.
  - rewrite Hf. intros [|[|[|j]]] d Hd Hj; try lia; discriminate Hd.
  - rewrite Hf. intros c Hc.
    apply elem_of_cons in Hc as [->|Hc];
      [|apply list_elem_of_singleton in Hc as ->]; vm_compute; discriminate.
Defined.

Lemma free_extends_after_neighbour_witness :
  visible (free_chunks (micro_arena_free test_ma (test_ma + 50)
                          test_arena_two_live))
    = <[0%nat := mkChunk (test_ma + 50) (3977 + 69)]>
        (visible (free_chunks test_arena_two_live))
  ∧ visible (used_chunks (micro_arena_free test_ma (test_ma + 50)
                            test_arena_two_live))
    = delete 1%nat (visible (used_chunks test_arena_two_live)).
Proof.
  destruct test_arena_dirs as (_ & [Hf Hu] & _).
  apply (free_extends_after_neighbour test_ma (test_ma + 50)
           test_arena_two_live 1 (mkChunk (test_ma + 50) 69)
           0 (mkChunk (test_ma + 119) 3977)).
  - apply inv_wf, test_arena_two_live_inv.
  - rewrite Hu. reflexivity.
  - reflexivity.
  - rewrite Hu. intros [|[|j]] d Hd Hj; try lia.
    injection Hd as <-. vm_compute. discriminate.
  - rewrite Hf. reflexivity.
  - reflexivity.
  - rewrite Hf. intros [|[|[|j]]] d Hd Hj; try lia; try discriminate Hd.
    injection Hd as <-. vm_compute. discriminate.
  - rewrite Hf. intros c Hc.
    apply elem_of_cons in Hc as [->|Hc];
      [|apply list_elem_of_singleton in Hc as ->]; vm_compute; discriminate.
Defined.

Lemma free_without_neighbour_witness :
  visible (used_chunks (micro_arena_free test_ma test_ma test_arena_three_live))
    = delete 0%nat (visible (used_chunks test_arena_three_live))
  ∧ ((len (free_chunks test_arena_three_live) + 1
      < MICRO_ARENA_MAX_NUM_CHUNKS)%nat →
     visible (free_chunks (micro_arena_free test_ma test_ma
                             test_arena_three_live))
     = visible (free_chunks test_arena_three_live) ++ [mkChunk test_ma 40])
  ∧ ((MICRO_ARENA_MAX_NUM_CHUNKS
      ≤ len (free_chunks test_arena_three_live) + 1)%nat →
     visible (free_chunks (micro_arena_free test_ma test_ma
                             test_arena_three_live))
     = visible (free_chunks test_arena_three_live)).
Proof.
  destruct test_arena_dirs as ([Hf Hu] & _).
  apply (free_without_neighbour test_ma test_ma test_arena_three_live
           0 (mkChunk test_ma 40)).
  - apply inv_wf, test_arena_three_live_inv.
  - rewrite Hu. reflexivity.
  - reflexivity.
  - intros j d _ Hj. lia.
  - rewrite Hf. intros c Hc. apply list_elem_of_singleton in Hc as ->.
    vm_compute. discriminate.
  - rewrite Hf. intros c Hc. apply list_elem_of_singleton in Hc as ->.
    vm_compute. discriminate.
Defined.

(** ** Release after release, release after allocation *)

Section composition_properties.
Variable ma : Z.
Hypothesis ma_pos : 0 < ma.
Hypothesis ma_end : ma + MICRO_ARENA_STACK_MEM_SIZE < size_modulus.
Implicit Types (s : MicroArena) (c d : MicroArenaChunk).

(** X12.  In a state reached without requests for zero bytes a second
    release of the same pointer changes nothing: the handle is gone from
    the used directory after the first one. *)
Theorem free_twice_is_free_once ptr s :
  arena_inv ma s →
  micro_arena_free ma ptr (micro_arena_free ma ptr s)
  = micro_arena_free ma ptr s.
Proof.
  intros Hinv. pose proof Hinv as (_ & _ & Hshape & Hdirs).
  destruct (dirs_inv_unique ma _ _ Hdirs) as [_ HndU].
  assert (ma ≠ NULL) as Hma by (unfold NULL; lia).
  destruct (find_start ptr (visible (used_chunks s))) as [u|] eqn:Hfind.
  - pose proof Hfind as (uc & Huc & Hptr & _)%find_start_Some.
    destruct (free_found ma ptr s u uc Hma Hshape Hfind Huc)
      as (a & b & _ & _ & _ & [_ Hus'] & Hu' & _).
    apply free_not_found. rewrite get_find_start by (by apply shape_len_le).
    apply find_start_None. intros c Hc Hstart. rewrite Hu' in Hc.
    apply elem_of_delete_lookup in Hc as (j & Hj & Hc). apply Hj.
    apply (NoDup_lookup _ j u ptr HndU); rewrite list_lookup_fmap.
    + rewrite Hc. simpl. by rewrite Hstart.
    + rewrite Huc. simpl. by rewrite Hptr.
  - assert (micro_arena_free ma ptr s = s) as Hsame; [|by rewrite !Hsame].
    apply free_not_found. rewrite get_find_start; [done|].
    apply shape_len_le. by destruct Hshape.
Qed.

(** X13.  In a state reached without requests for zero bytes, releasing
    the pointer that [micro_arena_malloc] has just returned gives back the
    two directories as they were before the allocation: the free entry
    that was split gets its start and its size back, in its slot. *)
Theorem free_after_malloc_restores size s :
  arena_inv ma s → is_word size → size ≠ 0 →
  (micro_arena_malloc ma size s).2 ≠ NULL →
  visible (free_chunks (micro_arena_free ma (micro_arena_malloc ma size s).2
                          (micro_arena_malloc ma size s).1))
    = visible (free_chunks s)
  ∧ visible (used_chunks (micro_arena_free ma (micro_arena_malloc ma size s).2
                            (micro_arena_malloc ma size s).1))
    = visible (used_chunks s).
Proof.
  intros Hinv Hword Hnz Hnn.
  pose proof (inv_malloc ma ma_pos ma_end s size (conj Hword Hnz) Hinv) as Hinv'.
  pose proof Hinv as (_ & _ & Hshape & HF & HU & Hpos & Hgap & Hsep & Hcross).
  destruct (malloc_cases ma size s (inv_wf ma s Hinv))
    as [[_ Hm]|(k & c & s' & Hfit & Hc & _ & Hm & _ & Hf' & Hu')];
    rewrite Hm in *; simpl in *; [done|].
  apply find_fit_Some in Hfit as (c' & Hc' & Hle & _).
  assert (c' = c) as -> by congruence. clear Hc'.
  pose proof (Forall_lookup_1 _ _ _ _ HF Hc) as Hin.
  assert (0 < size) as Hsize by (unfold is_word in Hword; lia).
  rewrite !wrap_small in Hf' by range_arith.
  set (uc := mkChunk (chunk_start c) size) in *.
  set (c2 := mkChunk (chunk_start c + size) (chunk_size c - size)) in *.
  pose proof (inv_wf ma s' Hinv') as Hwf'.
  pose proof Hwf' as (_ & _ & _ & HF' & HU').
  assert (visible (used_chunks s') !! length (visible (used_chunks s))
          = Some uc) as Huc.
  { rewrite Hu'. apply list_lookup_middle. done. }
  assert (visible (free_chunks s') !! k = Some c2) as Hc2.
  { rewrite Hf'. apply list_lookup_insert_eq. by eapply lookup_lt_Some. }
  destruct (free_known_neighbours ma (chunk_start c) s'
              (length (visible (used_chunks s))) uc Hwf' Huc eq_refl)
    as (a & b & Ha & Hb & Hu'' & Hf'').
  { intros j d Hd Hj. rewrite Hu' in Hd. rewrite lookup_app_l in Hd by done.
    pose proof (Hcross c d (list_elem_of_lookup_2 _ _ _ Hc)
                  (list_elem_of_lookup_2 _ _ _ Hd)).
    pose proof (Forall_lookup_1 _ _ _ _ Hpos Hd). simpl in *.
    unfold separate, in_buffer, chunk_end in *. lia. }
  assert (∀ j d, j ≠ k → visible (free_chunks s') !! j = Some d →
            gap d c ∧ in_buffer ma d) as Hother.
  { intros j d Hj Hd. rewrite Hf' in Hd.
    rewrite list_lookup_insert_ne in Hd by done.
    split; [exact (Hgap j k d c Hj Hd Hc)|].
    exact (Forall_lookup_1 _ _ _ _ HF Hd). }
  split.
  - rewrite Hf''.
    assert (b = None) as ->.
    { apply (scan_result_None_unique _ _ _ _ Hb).
      intros d [j Hd]%list_elem_of_lookup_1.
      destruct (decide (j = k)) as [->|Hj].
      - assert (d = c2) as -> by congruence.
        unfold chunk_end, in_buffer in *. simpl. lia.
      - destruct (Hother j d Hj Hd).
        unfold gap, chunk_end, in_buffer in *. simpl. lia. }
    assert (a = Some k) as ->.
    { destruct a as [ia|]; last first.
      { by destruct (Ha c2 (list_elem_of_lookup_2 _ _ _ Hc2)). }
      f_equal. apply (scan_result_Some_unique _ _ _ _ _ _ Ha Hc2); [done|].
      intros j d Hd Hj. destruct (Hother j d) as [??]; [lia | done |].
      unfold gap, chunk_end, in_buffer in *. simpl. lia. }
    pose proof (Forall_lookup_1 _ _ _ _ HU' Huc) as Hinu.
    rewrite (merged_free_plain ma ma_pos ma_end _ _ _ _ HF' Hinu Ha Hb).
    rewrite (list_lookup_total_correct _ _ _ Hc2). rewrite Hf'.
    rewrite list_insert_insert_eq. simpl.
    replace (chunk_size c - size + size) with (chunk_size c) by lia.
    apply list_insert_id. by destruct c.
  - rewrite Hu'', Hu'. apply delete_snoc_last.
Qed.

End composition_properties.

Lemma free_twice_is_free_once_witness :
  micro_arena_free test_ma (test_ma + 40)
    (micro_arena_free test_ma (test_ma + 40) test_arena_two_live)
  = micro_arena_free test_ma (test_ma + 40) test_arena_two_live.
Proof.
  apply (free_twice_is_free_once test_ma).
  - reflexivity.
  - apply test_arena_two_live_inv.
Defined.

Lemma free_after_malloc_restores_witness :
  visible (free_chunks
             (micro_arena_free test_ma (micro_arena_malloc test_ma 10 one_arena).2
                (micro_arena_malloc test_ma 10 one_arena).1))
    = visible (free_chunks one_arena)
  ∧ visible (used_chunks
               (micro_arena_free test_ma
                  (micro_arena_malloc test_ma 10 one_arena).2
                  (micro_arena_malloc test_ma 10 one_arena).1))
    = visible (used_chunks one_arena).
Proof.
  apply (free_after_malloc_restores test_ma).
  - reflexivity.
  - apply test_ma_end.
  - apply one_arena_inv.
  - apply is_word_small. lia.
  - discriminate.
  - vm_compute. discriminate.
Defined.

(** ** Resize of an unknown pointer, directory lengths *)

Section bounds_properties.
Implicit Types (s : MicroArena) (c d : MicroArenaChunk).

(** X14.  [micro_arena_realloc] of a non-null pointer that no used entry
    starts at returns the null pointer and the arena as it was: nothing is
    allocated on the way. *)
Theorem realloc_unknown_pointer_fails ma ptr size s :
  arena_shape s → ptr ≠ NULL →
  (∀ c, c ∈ visible (used_chunks s) → chunk_start c ≠ ptr) →
  micro_arena_realloc ma ptr size s = (s, NULL).
Proof.
  intros [_ Hu] Hptr Hnone. unfold micro_arena_realloc.
  destruct (ma =? NULL); [done|].
  rewrite (proj2 (Z.eqb_neq _ _) Hptr).
  rewrite get_find_start by (by apply shape_len_le).
  by rewrite (proj2 (find_start_None _ _) Hnone).
Qed.

Lemma realloc_unknown_pointer_fails_witness :
  micro_arena_realloc test_ma (test_ma + 7) 5 one_arena = (one_arena, NULL).
Proof.
  apply (realloc_unknown_pointer_fails test_ma (test_ma + 7) 5 one_arena).
  - split; (split; [vm_compute; reflexivity|]);
      apply Nat.leb_le; vm_compute; reflexivity.
  - discriminate.
  - assert (visible (used_chunks one_arena) = [mkChunk test_ma 40]) as ->
      by (vm_compute; reflexivity).
    intros c Hc. apply list_elem_of_singleton in Hc. rewrite Hc.
    vm_compute. discriminate.
Defined.

Lemma length_delete_le {A} (l : list A) i : (length (delete i l) ≤ length l)%nat.
Proof.
  revert i. induction l as [|x l IH]; intros [|i]; simpl; try lia.
  specialize (IH i). lia.
Qed.

Lemma merged_free_length (l : list MicroArenaChunk) uc a b :
  (length l < MICRO_ARENA_MAX_NUM_CHUNKS)%nat →
  (length (merged_free l uc a b) < MICRO_ARENA_MAX_NUM_CHUNKS)%nat.
Proof.
  intros Hl. unfold merged_free. destruct a as [ia|], b as [ib|].
  - destruct (find_start _ _).
    + eapply Nat.le_lt_trans; [apply length_delete_le|].
      by rewrite length_insert.
    + by rewrite length_insert.
  - by rewrite length_insert.
  - by rewrite length_insert.
  - destruct (Nat.leb_spec MICRO_ARENA_MAX_NUM_CHUNKS (length l + 1));
      [done|]. rewrite length_app. simpl. lia.
Qed.

Lemma capacity_dirs s s' :
  same_dirs s s' → arena_shape s' ∧ below_capacity s' →
  arena_shape s ∧ below_capacity s.
Proof.
  intros [Hf Hu]. unfold arena_shape, below_capacity. by rewrite Hf, Hu.
Qed.

Lemma capacity_init ma s :
  ma ≠ NULL → arena_shape s →
  arena_shape (micro_arena_init ma s) ∧ below_capacity (micro_arena_init ma s).
Proof.
  intros Hma Hs. destruct (init_visible ma s Hma Hs) as (Hf & Hu & _ & Hs').
  split; [done|]. destruct Hs' as [Hfs Hus]. pose proof max_num_chunks_gt_1.
  split.
  - rewrite <-(visible_length (free_chunks _)) by (by apply shape_len_le).
    rewrite Hf. simpl. lia.
  - rewrite <-(visible_length (used_chunks _)) by (by apply shape_len_le).
    rewrite Hu. simpl. lia.
Qed.

Lemma capacity_malloc ma size s :
  ma ≠ NULL → arena_shape s ∧ below_capacity s →
  arena_shape (micro_arena_malloc ma size s).1
  ∧ below_capacity (micro_arena_malloc ma size s).1.
Proof.
  intros Hma [Hs [Hfb Hub]]. split; [by apply shape_malloc|].
  destruct (find_fit size (visible (free_chunks s))) as [k|] eqn:Hfit.
  - destruct (Nat.leb_spec MICRO_ARENA_MAX_NUM_CHUNKS
                (len (used_chunks s) + 1)) as [Hfull|Hroom].
    { by rewrite malloc_used_full. }
    pose proof Hfit as (c & Hc & _)%find_fit_Some.
    destruct (malloc_fit ma size s k c Hma Hs Hfit Hc Hroom)
      as (s' & -> & _ & [Hfs' Hus'] & Hf' & Hu').
    destruct Hs as [Hfs Hus]. simpl. split.
    + rewrite <-(visible_length (free_chunks s')) by (by apply shape_len_le).
      rewrite Hf', length_insert, visible_length by (by apply shape_len_le).
      done.
    + rewrite <-(visible_length (used_chunks s')) by (by apply shape_len_le).
      rewrite Hu', length_app, visible_length by (by apply shape_len_le).
      simpl. lia.
  - rewrite malloc_no_fit; [done | by destruct Hs | done].
Qed.

Lemma capacity_free ma ptr s :
  ma ≠ NULL → arena_shape s ∧ below_capacity s →
  arena_shape (micro_arena_free ma ptr s)
  ∧ below_capacity (micro_arena_free ma ptr s).
Proof.
  intros Hma [Hs [Hfb Hub]]. split; [by apply shape_free|].
  pose proof Hs as [Hfs Hus].
  destruct (find_start ptr (visible (used_chunks s))) as [u|] eqn:Hfind.
  - pose proof Hfind as (uc & Huc & _)%find_start_Some.
    destruct (free_found ma ptr s u uc Hma Hs Hfind Huc)
      as (a & b & _ & _ & _ & [Hfs' Hus'] & Hu' & Hf').
    split.
    + rewrite <-(visible_length (free_chunks _)) by (by apply shape_len_le).
      rewrite Hf'. apply merged_free_length.
      by rewrite visible_length by (by apply shape_len_le).
    + rewrite <-(visible_length (used_chunks _)) by (by apply shape_len_le).
      rewrite Hu'. eapply Nat.le_lt_trans; [apply length_delete_le|].
      by rewrite visible_length by (by apply shape_len_le).
  - rewrite free_not_found; [done|].
    rewrite get_find_start; [done|]. by apply shape_len_le.
Qed.

(** X15.  Whatever the arguments of the calls, neither directory of an
    arena ever holds more than [MICRO_ARENA_MAX_NUM_CHUNKS - 1] entries: the
    last slot of each array is never used. *)
Theorem directories_stay_below_capacity ma s :
  ma ≠ NULL → reachable ma s →
  (len (free_chunks s) ≤ MICRO_ARENA_MAX_NUM_CHUNKS - 1)%nat
  ∧ (len (used_chunks s) ≤ MICRO_ARENA_MAX_NUM_CHUNKS - 1)%nat.
Proof.
  intros Hma Hreach.
  assert (arena_shape s ∧ below_capacity s) as [_ [Hf Hu]]; [|lia].
  revert Hreach.
  apply (Inv_reachable_by ma (λ s, arena_shape s ∧ below_capacity s)
           (λ _, True) (λ _ _, True)); try done.
  - apply capacity_dirs.
  - by intros s' [? _].
  - intros s' Hs'. by apply capacity_init.
  - intros s' size _. by apply capacity_malloc.
  - intros s' ptr _. by apply capacity_free.
Qed.

Lemma directories_stay_below_capacity_witness :
  (len (free_chunks full_arena) ≤ MICRO_ARENA_MAX_NUM_CHUNKS - 1)%nat
  ∧ (len (used_chunks full_arena) ≤ MICRO_ARENA_MAX_NUM_CHUNKS - 1)%nat.
Proof.
  apply (directories_stay_below_capacity test_ma full_arena).
  - discriminate.
  - apply reachable_by_run; [apply test_init_reachable|].
    apply Forall_replicate. vm_compute. split; [discriminate | reflexivity].
Defined.

End bounds_properties.

(** ** The bytes of the buffer *)

Section buffer_properties.
Variable ma : Z.
Hypothesis ma_pos : 0 < ma.
Hypothesis ma_end : ma + MICRO_ARENA_STACK_MEM_SIZE < size_modulus.
Implicit Types (s : MicroArena) (c d : MicroArenaChunk).

Lemma load_byte_mem s s' addr :
  mem s = mem s' → load_byte ma s addr = load_byte ma s' addr.
Proof. intros Hmem. unfold load_byte. by rewrite Hmem. Qed.

Lemma store_byte_shape s addr v :
  buffer_shape s → buffer_shape (store_byte ma s addr v).
Proof.
  unfold buffer_shape, store_byte. intros Hs.
  destruct (_ && _); [|done]. simpl. by rewrite length_insert.
Qed.

Lemma load_store s addr v addr' :
  buffer_shape s → ma ≤ addr < ma + MICRO_ARENA_STACK_MEM_SIZE →
  load_byte ma (store_byte ma s addr v) addr'
  = if decide (addr' = addr) then v else load_byte ma s addr'.
Proof.
  intros Hs Haddr.
  assert (store_byte ma s addr v
          = with_mem s (<[Z.to_nat (addr - ma) := v]> (mem s))) as ->.
  { unfold store_byte. rewrite (proj2 (andb_true_iff _ _)); [done|].
    split; [apply Z.leb_le | apply Z.ltb_lt]; lia. }
  unfold load_byte. simpl. case_decide as Heq.
  - subst addr'. rewrite (proj2 (andb_true_iff _ _)); last first.
    { split; [apply Z.leb_le | apply Z.ltb_lt]; lia. }
    rewrite list_lookup_insert_eq; [done|].
    unfold buffer_shape in Hs. rewrite Hs. lia.
  - destruct (_ && _) eqn:Hin; [|done].
    apply andb_true_iff in Hin as [?%Z.leb_le ?%Z.ltb_lt].
    rewrite list_lookup_insert_ne; [done|]. lia.
Qed.

Lemma zero_loop_load p s n i0 addr :
  buffer_shape s → ma ≤ p + i0 →
  p + i0 + Z.of_nat n ≤ ma + MICRO_ARENA_STACK_MEM_SIZE →
  load_byte ma (zero_loop ma p s n i0) addr
  = if decide (p + i0 ≤ addr < p + i0 + Z.of_nat n) then 0
    else load_byte ma s addr.
Proof.
  revert s i0. induction n as [|n IH]; intros s i0 Hs Hlo Hhi; simpl.
  { case_decide; [lia | done]. }
  rewrite wrap_small by lia.
  rewrite IH; [|by apply store_byte_shape|lia|lia].
  rewrite load_store by (done || lia).
  repeat case_decide; try done; lia.
Qed.

Lemma copy_loop_load dst src s n i0 addr :
  buffer_shape s →
  ma ≤ src + i0 → src + i0 + Z.of_nat n ≤ ma + MICRO_ARENA_STACK_MEM_SIZE →
  ma ≤ dst + i0 → dst + i0 + Z.of_nat n ≤ ma + MICRO_ARENA_STACK_MEM_SIZE →
  src + i0 + Z.of_nat n ≤ dst + i0 ∨ dst + i0 + Z.of_nat n ≤ src + i0 →
  load_byte ma (copy_loop ma dst src s n i0) addr
  = if decide (dst + i0 ≤ addr < dst + i0 + Z.of_nat n)
    then load_byte ma s (src + (addr - dst))
    else load_byte ma s addr.
Proof.
  revert s i0. induction n as [|n IH];
    intros s i0 Hs Hslo Hshi Hdlo Hdhi Hdisj; simpl.
  { case_decide; [lia | done]. }
  rewrite !wrap_small by lia.
  rewrite IH; [|by apply store_byte_shape|lia..].
  rewrite !load_store by (done || lia).
  repeat case_decide; try done; try lia.
  f_equal. lia.
Qed.

(** X16.  [micro_arena_calloc] returns the pointer and leaves the
    directories that [micro_arena_malloc] of [nmemb * size] (modulo 2^64)
    gives; when the pointer is not null every byte of the returned range
    reads zero afterwards and every byte outside of it reads what it read
    before. *)
Theorem calloc_zeroes_its_range nmemb size s :
  arena_wf ma s → buffer_shape s →
  (micro_arena_calloc ma nmemb size s).2
    = (micro_arena_malloc ma (wrap (nmemb * size)) s).2
  ∧ same_dirs (micro_arena_calloc ma nmemb size s).1
      (micro_arena_malloc ma (wrap (nmemb * size)) s).1
  ∧ ((micro_arena_calloc ma nmemb size s).2 ≠ NULL →
     (∀ i, 0 ≤ i < wrap (nmemb * size) →
        load_byte ma (micro_arena_calloc ma nmemb size s).1
          ((micro_arena_calloc ma nmemb size s).2 + i) = 0)
     ∧ (∀ addr,
          ¬ ((micro_arena_calloc ma nmemb size s).2 ≤ addr
             < (micro_arena_calloc ma nmemb size s).2 + wrap (nmemb * size)) →
          load_byte ma (micro_arena_calloc ma nmemb size s).1 addr
          = load_byte ma s addr)).
Proof.
  intros Hwf Hbuf. pose proof Hwf as (_ & _ & _ & HF & _).
  pose proof (wrap_is_word (nmemb * size)) as Hn. unfold is_word in Hn.
  pose proof (malloc_mem ma (wrap (nmemb * size)) s) as Hmem.
  unfold micro_arena_calloc.
  rewrite (proj2 (Z.eqb_neq ma NULL)) by (unfold NULL; lia).
  rewrite (Z.mul_comm size nmemb).
  destruct (malloc_cases ma (wrap (nmemb * size)) s Hwf)
    as [[_ Hm]|(k & c & s' & Hfit & Hc & _ & Hm & Hnn & _)];
    rewrite Hm in *; simpl in *.
  { split; [done|]. split; [done|]. done. }
  rewrite (proj2 (Z.eqb_neq _ _) Hnn). simpl.
  apply find_fit_Some in Hfit as (c' & Hc' & Hle & _).
  assert (c' = c) as -> by congruence.
  pose proof (Forall_lookup_1 _ _ _ _ HF Hc) as Hin.
  unfold in_buffer, chunk_end in Hin.
  assert (buffer_shape s') as Hbuf' by (unfold buffer_shape; by rewrite Hmem).
  split; [done|]. split.
  { by destruct (zero_loop_with_mem ma (chunk_start c) s'
                   (Z.to_nat (wrap (nmemb * size))) 0) as [m' ->]. }
  intros _. split.
  - intros i Hi. rewrite zero_loop_load by (done || lia).
    rewrite decide_True; [done | lia].
  - intros addr Haddr. rewrite zero_loop_load by (done || lia).
    rewrite decide_False by lia. by apply load_byte_mem.
Qed.

(** X17.  In a state reached without requests for zero bytes, when [ptr]
    is a live allocation and the inner [micro_arena_malloc] of a non-zero
    [size] succeeds, [micro_arena_realloc] returns the new pointer, leaves
    the directories that the allocation followed by the release of [ptr]
    gives, and the first [min (old size) size] bytes of the new range read
    what the old range held; the bytes outside those read what they read
    before. *)
Theorem realloc_moves_contents ptr size s u uc :
  arena_inv ma s → buffer_shape s → is_word size → size ≠ 0 →
  visible (used_chunks s) !! u = Some uc → chunk_start uc = ptr →
  (micro_arena_malloc ma size s).2 ≠ NULL →
  (micro_arena_realloc ma ptr size s).2 = (micro_arena_malloc ma size s).2
  ∧ same_dirs (micro_arena_realloc ma ptr size s).1
      (micro_arena_free ma ptr (micro_arena_malloc ma size s).1)
  ∧ (∀ i, 0 ≤ i < Z.min (chunk_size uc) size →
       load_byte ma (micro_arena_realloc ma ptr size s).1
         ((micro_arena_realloc ma ptr size s).2 + i)
       = load_byte ma s (ptr + i))
  ∧ (∀ addr,
       ¬ ((micro_arena_realloc ma ptr size s).2 ≤ addr
          < (micro_arena_realloc ma ptr size s).2
            + Z.min (chunk_size uc) size) →
       load_byte ma (micro_arena_realloc ma ptr size s).1 addr
       = load_byte ma s addr).
Proof.
  intros Hinv Hbuf Hword Hnz Huc Hptr Hnn.
  pose proof Hinv as (_ & _ & Hshape & Hdirs).
  pose proof Hdirs as (HF & HU & Hpos & Hgap & Hsep & Hcross).
  destruct (dirs_inv_unique ma _ _ Hdirs) as [_ HndU].
  pose proof (Forall_lookup_1 _ _ _ _ HU Huc) as Hinu.
  pose proof (Forall_lookup_1 _ _ _ _ Hpos Huc) as Hupos. simpl in Hupos.
  assert (micro_arena_chunk_list_get (used_chunks s) ptr = Some u) as Hget.
  { rewrite get_find_start by (apply shape_len_le; by destruct Hshape).
    apply find_start_Some. exists uc. split; [done|]. split; [done|].
    intros j d Hd Hj Heq. assert (j = u); [|lia].
    apply (NoDup_lookup _ j u ptr HndU); rewrite list_lookup_fmap.
    - rewrite Hd. simpl. by rewrite Heq.
    - rewrite Huc. simpl. by rewrite Hptr. }
  pose proof (malloc_mem ma size s) as Hmem.
  unfold micro_arena_realloc.
  rewrite (proj2 (Z.eqb_neq ma NULL)) by (unfold NULL; lia).
  rewrite (proj2 (Z.eqb_neq ptr NULL))
    by (unfold in_buffer, NULL in *; lia).
  rewrite Hget.
  destruct (malloc_cases ma size s (inv_wf ma s Hinv))
    as [[_ Hm]|(k & c & s' & Hfit & Hc & _ & Hm & Hcnn & _ & Hu')];
    rewrite Hm in *; simpl in *; [done|].
  rewrite (proj2 (Z.eqb_neq _ _) Hcnn). simpl.
  apply find_fit_Some in Hfit as (c' & Hc' & Hle & _).
  assert (c' = c) as -> by congruence.
  pose proof (Forall_lookup_1 _ _ _ _ HF Hc) as Hin.
  pose proof (Hcross c uc (list_elem_of_lookup_2 _ _ _ Hc)
                (list_elem_of_lookup_2 _ _ _ Huc)) as Hdisj.
  assert (chunk_at (used_chunks s') u = uc) as ->.
  { apply visible_lookup_chunk_at. rewrite Hu'. by apply lookup_app_l_Some. }
  assert ((if chunk_size uc <? size then chunk_size uc else size)
          = Z.min (chunk_size uc) size) as ->.
  { destruct (Z.ltb_spec (chunk_size uc) size); lia. }
  assert (buffer_shape s') as Hbuf' by (unfold buffer_shape; by rewrite Hmem).
  unfold is_word in Hword.
  unfold in_buffer, separate, chunk_end in *.
  split; [done|]. split.
  { match goal with |- context [copy_loop ?a ?b ?c ?d ?e ?f] =>
      destruct (copy_loop_with_mem a b c d e f) as [m' ->] end.
    by rewrite free_with_mem. }
  split.
  - intros i Hi.
    rewrite (load_byte_mem _ _ _ (free_mem ma ptr _)).
    rewrite copy_loop_load by (done || lia).
    rewrite decide_True by lia.
    replace (ptr + (chunk_start c + i - chunk_start c)) with (ptr + i) by lia.
    by apply load_byte_mem.
  - intros addr Haddr.
    rewrite (load_byte_mem _ _ _ (free_mem ma ptr _)).
    rewrite copy_loop_load by (done || lia).
    rewrite decide_False by lia. by apply load_byte_mem.
Qed.

End buffer_properties.

Lemma one_arena_buffer : buffer_shape one_arena.
Proof. vm_compute. reflexivity. Qed.

Lemma calloc_zeroes_its_range_witness :
  (micro_arena_calloc test_ma 3 4 one_arena).2
    = (micro_arena_malloc test_ma (wrap (3 * 4)) one_arena).2
  ∧ same_dirs (micro_arena_calloc test_ma 3 4 one_arena).1
      (micro_arena_malloc test_ma (wrap (3 * 4)) one_arena).1
  ∧ ((micro_arena_calloc test_ma 3 4 one_arena).2 ≠ NULL →
     (∀ i, 0 ≤ i < wrap (3 * 4) →
        load_byte test_ma (micro_arena_calloc test_ma 3 4 one_arena).1
          ((micro_arena_calloc test_ma 3 4 one_arena).2 + i) = 0)
     ∧ (∀ addr,
          ¬ ((micro_arena_calloc test_ma 3 4 one_arena).2 ≤ addr
             < (micro_arena_calloc test_ma 3 4 one_arena).2 + wrap (3 * 4)) →
          load_byte test_ma (micro_arena_calloc test_ma 3 4 one_arena).1 addr
          = load_byte test_ma one_arena addr)).
Proof.
  apply (calloc_zeroes_its_range test_ma).
  - reflexivity.
  - apply test_ma_end.
  - apply inv_wf, one_arena_inv.
  - vm_compute. reflexivity.
Defined.

Lemma realloc_moves_contents_witness :
  (micro_arena_realloc test_ma test_ma 100 one_arena).2
    = (micro_arena_malloc test_ma 100 one_arena).2
  ∧ same_dirs (micro_arena_realloc test_ma test_ma 100 one_arena).1
      (micro_arena_free test_ma test_ma
         (micro_arena_malloc test_ma 100 one_arena).1)
  ∧ (∀ i, 0 ≤ i < Z.min (chunk_size (mkChunk test_ma 40)) 100 →
       load_byte test_ma (micro_arena_realloc test_ma test_ma 100 one_arena).1
         ((micro_arena_realloc test_ma test_ma 100 one_arena).2 + i)
       = load_byte test_ma one_arena (test_ma + i))
  ∧ (∀ addr,
       ¬ ((micro_arena_realloc test_ma test_ma 100 one_arena).2 ≤ addr
          < (micro_arena_realloc test_ma test_ma 100 one_arena).2
            + Z.min (chunk_size (mkChunk test_ma 40)) 100) →
       load_byte test_ma (micro_arena_realloc test_ma test_ma 100 one_arena).1
         addr
       = load_byte test_ma one_arena addr).
Proof.
  apply (realloc_moves_contents test_ma) with (u := 0%nat).
  - reflexivity.
  - apply test_ma_end.
  - apply one_arena_inv.
  - vm_compute. reflexivity.
  - apply is_word_small. lia.
  - discriminate.
  - vm_compute. reflexivity.
  - reflexivity.
  - vm_compute. discriminate.
Defined.

(** ** Requests that cannot be served, and the invariants on concrete runs *)

(** X18.  On a well-formed arena a request for more bytes than the buffer
    has is refused: [micro_arena_malloc] returns the null pointer and the
    arena as it was. *)
Theorem malloc_larger_than_buffer_fails ma size s :
  arena_wf ma s → MICRO_ARENA_STACK_MEM_SIZE < size →
  micro_arena_malloc ma size s = (s, NULL).
Proof.
  intros (_ & _ & [Hfs _] & HF & _) Hsize.
  apply malloc_no_fit; [done|]. apply find_fit_None. intros c Hc.
  pose proof (proj1 (Forall_forall _ _) HF c Hc) as Hin.
  unfold in_buffer, chunk_end in Hin. lia.
Qed.

Lemma malloc_larger_than_buffer_fails_witness :
  micro_arena_malloc test_ma 4097 one_arena = (one_arena, NULL).
Proof.
  apply (malloc_larger_than_buffer_fails test_ma 4097 one_arena).
  - apply inv_wf, one_arena_inv.
  - reflexivity.
Defined.

Lemma test_ops_valid : Forall op_valid test_ops.
Proof.
  unfold test_ops. repeat apply Forall_cons_2; try apply Forall_nil_2;
    simpl; apply is_word_small; unfold test_ma; lia.
Qed.

Lemma reachable_wf_witness :
  arena_wf test_ma
    (run test_ma test_ops (micro_arena_init test_ma blank_arena)).
Proof.
  apply (reachable_wf test_ma).
  - reflexivity.
  - apply test_ma_end.
  - apply reachable_by_run; [apply test_init_reachable | apply test_ops_valid].
Defined.

Lemma ranges_disjoint_without_zero_requests_witness :
  pairwise disjoint_ranges
    (visible (free_chunks test_arena_before_last_free)
     ++ visible (used_chunks test_arena_before_last_free))
  ∧ Forall (in_buffer test_ma)
      (visible (free_chunks test_arena_before_last_free)
       ++ visible (used_chunks test_arena_before_last_free)).
Proof.
  apply (ranges_disjoint_without_zero_requests test_ma).
  - reflexivity.
  - apply test_ma_end.
  - apply reachable_by_run; [apply test_init_reachable | apply test_ops_nonzero].
Defined.

Lemma test_arena_before_last_free_unmerged :
  reachable_unmerged test_ma test_arena_before_last_free.
Proof.
  unfold test_arena_before_last_free, run, test_ops_before_last_free.
  cbn [foldl].
  pose proof test_ops_nonzero as Hops. unfold test_ops_before_last_free in Hops.
  apply Forall_cons in Hops as [[Hv1 Hn1] Hops].
  apply Forall_cons in Hops as [[Hv2 Hn2] Hops].
  apply Forall_cons in Hops as [[Hv3 Hn3] Hops].
  apply Forall_cons in Hops as [[Hv4 Hn4] Hops].
  apply Forall_cons in Hops as [[Hv5 Hn5] _].
  apply unmerged_step; [apply unmerged_step; [apply unmerged_step;
    [apply unmerged_step; [apply unmerged_step; [apply unmerged_init,
      blank_arena_shape|..]|..]|..]|..]|..]; try assumption.
  - intros s' ptr [=].
  - intros s' ptr [=].
  - intros s' ptr [=].
  - intros s' ptr [= <- <-] (u & a & b & Hget & Hscan).
    vm_compute in Hget. injection Hget as <-.
    vm_compute in Hscan. discriminate Hscan.
  - intros s' ptr [= <- <-] (u & a & b & Hget & Hscan).
    vm_compute in Hget. injection Hget as <-.
    vm_compute in Hscan. discriminate Hscan.
Qed.

Lemma tiles_without_merging_release_witness :
  tiles test_ma test_arena_before_last_free.
Proof.
  apply (tiles_without_merging_release test_ma).
  - reflexivity.
  - apply test_ma_end.
  - apply test_arena_before_last_free_unmerged.
Defined.

Lemma free_both_neighbours_drops_before_witness :
  visible (free_chunks (micro_arena_free test_ma (test_ma + 40)
                          test_arena_before_last_free))
    = delete 1%nat (visible (free_chunks test_arena_before_last_free))
  ∧ visible (used_chunks (micro_arena_free test_ma (test_ma + 40)
                            test_arena_before_last_free))
    = delete 0%nat (visible (used_chunks test_arena_before_last_free)).
Proof.
  destruct test_arena_dirs as (_ & _ & [Hf Hu]).
  apply (free_both_neighbours_drops_before test_ma) with
    (uc := mkChunk (test_ma + 40) 10) (ia := 0%nat)
    (ca := mkChunk (test_ma + 50) 4046) (cb := mkChunk test_ma 40).
  - reflexivity.
  - apply test_ma_end.
  - apply test_arena_before_last_free_inv.
  - rewrite Hu. reflexivity.
  - reflexivity.
  - rewrite Hf. reflexivity.
  - reflexivity.
  - rewrite Hf. reflexivity.
  - reflexivity.
Defined.
